(** * The todo-list component: loader, mutators and presenter

    A shallow embedding of [src/components/main/Main.tsx] (the component with
    priorities, filters and sorting) and of the plain sibling component that
    only loads and adds.  The component state ([useState] cells), the browser's
    [localStorage] and the requests handed to [fetch] are threaded explicitly
    through every handler.  A handler is taken to run from its first line to
    its last in one go, with the reply of the server as an argument: it reads
    the list of the render it was created in and writes state and cache from
    that one list.  The load is also given in two halves, up to its [await]
    and from there on ([begin_load], [settle]), for visits in which the user
    is at work before the list has come. *)

From Stdlib Require Import ZArith List Ascii String Lia.
From Stdlib Require Import Sorting.Sorted Sorting.Permutation DecimalZ DecimalPos.
From stdpp Require Import base option list strings gmap fin_maps pretty.

(** ** JavaScript values that travel as JSON

    Everything the component reads from the network or from the cache went
    through [JSON.parse], so it is a JSON value.  Numbers are kept as
    integers (ids and positions are all the component ever computes).
    Objects are finite maps from property names to values: two objects are
    equal when they hold the same properties. *)

#[local] Unset Elimination Schemes.
Inductive JSON : Type :=
  | JNull
  | JBool (b : bool)
  | JNum (n : Z)
  | JStr (s : string)
  | JArr (items : list JSON)
  | JObj (props : gmap string JSON).
#[local] Set Elimination Schemes.

(** An object literal, as every element of the [todos] array is. *)
Abbreviation Obj := (gmap string JSON).

(** [typeof v === 'string'] *)
Definition is_string (v : JSON) : bool :=
  match v with JStr _ => true | _ => false end.

(** Truthiness of a value, as [||], [!] and [if] see it.  [undefined] is the
    missing property, [None] below. *)
Definition truthy (v : JSON) : bool :=
  match v with
  | JNull => false
  | JBool b => b
  | JNum n => negb (n =? 0)%Z
  | JStr s => negb (String.eqb s EmptyString)
  | JArr _ | JObj _ => true
  end.

Definition truthy_opt (o : option JSON) : bool :=
  match o with Some v => truthy v | None => false end.

(** [a || b] where [a] may be [undefined]. *)
Definition js_or (a : option JSON) (b : JSON) : JSON :=
  match a with
  | Some v => if truthy v then v else b
  | None => b
  end.

(** The characters of a string as one-character strings. *)
Fixpoint chars (s : string) : list string :=
  match s with
  | EmptyString => []
  | String c rest => String c EmptyString :: chars rest
  end.

(** An array-like seen as an object: index [i] becomes the property named by
    the decimal numeral of [i]. *)
Definition index_props (l : list JSON) : Obj :=
  list_to_map (imap (λ i v, (pretty i, v)) l).

(** The own enumerable properties that [{...v}] copies.  Spreading [null],
    a boolean or a number copies nothing. *)
Definition own_props (v : JSON) : Obj :=
  match v with
  | JObj m => m
  | JArr l => index_props l
  | JStr s => index_props (JStr <$> chars s)
  | JNull | JBool _ | JNum _ => ∅
  end.

(** [{...v}] where [v] may be [undefined]. *)
Definition spread (o : option JSON) : Obj :=
  match o with Some v => own_props v | None => ∅ end.

(** Outcome of reading a property: [v.k] throws a [TypeError] on [null],
    yields [undefined] when the property is missing, and a value otherwise.
    Only the properties the component reads ([data], [priority], [id],
    [completed]) are asked for, none of which a primitive or an array
    carries. *)
Inductive Access : Type :=
  | Throws
  | Undefined
  | Value (v : JSON).

Definition get (v : JSON) (k : string) : Access :=
  match v with
  | JNull => Throws
  | JObj m => match m !! k with Some x => Value x | None => Undefined end
  | _ => Undefined
  end.

Definition access_opt (a : Access) : option (option JSON) :=
  match a with
  | Throws => None
  | Undefined => Some None
  | Value v => Some (Some v)
  end.

(** ** The platform

    [JSON.stringify] and [JSON.parse] belong to the browser.  The component
    relies on two facts about them: parsing what was serialised gives the
    value back, and the empty text does not parse.  Everything below holds
    for any pair of functions with these properties; [ReferenceCodec] further
    down is one such pair.  The build environment is part of the platform
    too. *)

Class Platform : Type := {
  JSON_stringify : JSON → string;
  JSON_parse : string → option JSON;
  JSON_parse_stringify : ∀ v, JSON_parse (JSON_stringify v) = Some v;
  JSON_parse_empty : JSON_parse EmptyString = None;
  (** [process.env.NEXT_PUBLIC_API_URL], fixed when the bundle is built *)
  NEXT_PUBLIC_API_URL : option string
}.

(** What [fetch] hands over.  [NetworkError] is a rejected promise;
    otherwise there is a status line and a body text. *)
Inductive Reply : Type :=
  | NetworkError
  | Response (status : Z) (text : string).

(** [response.ok] *)
Definition ok (status : Z) : bool := ((200 <=? status) && (status <=? 299))%Z.

Record Request : Type := mkRequest {
  url : string;
  method : string;
  headers : list (string * string);
  body : option string
}.

(** ** Component state *)

Inductive Priority : Type := low | medium | high.

Definition Priority_str (p : Priority) : string :=
  match p with low => "low" | medium => "medium" | high => "high" end.

Inductive FilterChoice : Type := all | completed | active.

Record State : Type := mkState {
  todos : list Obj;
  input : string;
  priority : Priority;
  loading : bool;
  error : option string;
  filter : FilterChoice
}.

(** The component together with what it touches outside itself: the
    browser's key-value store and the requests it has issued so far. *)
Record World : Type := mkWorld {
  ui : State;
  localStorage : gmap string string;
  requests : list Request
}.

Definition initial_state : State :=
  {| todos := []; input := EmptyString; priority := medium;
     loading := true; error := None; filter := all |}.

(** The world in which the component is mounted, over whatever the store
    holds at that moment. *)
Definition initial_world (storage : gmap string string) : World :=
  {| ui := initial_state; localStorage := storage; requests := [] |}.

Definition on_ui (f : State → State) (w : World) : World :=
  {| ui := f (ui w); localStorage := localStorage w; requests := requests w |}.

Definition setTodos (l : list Obj) : World → World :=
  on_ui (λ s, {| todos := l; input := input s; priority := priority s;
                 loading := loading s; error := error s; filter := filter s |}).
Definition setInput (i : string) : World → World :=
  on_ui (λ s, {| todos := todos s; input := i; priority := priority s;
                 loading := loading s; error := error s; filter := filter s |}).
Definition setPriority (p : Priority) : World → World :=
  on_ui (λ s, {| todos := todos s; input := input s; priority := p;
                 loading := loading s; error := error s; filter := filter s |}).
Definition setLoading (b : bool) : World → World :=
  on_ui (λ s, {| todos := todos s; input := input s; priority := priority s;
                 loading := b; error := error s; filter := filter s |}).
Definition setError (e : option string) : World → World :=
  on_ui (λ s, {| todos := todos s; input := input s; priority := priority s;
                 loading := loading s; error := e; filter := filter s |}).
Definition setFilter (f : FilterChoice) : World → World :=
  on_ui (λ s, {| todos := todos s; input := input s; priority := priority s;
                 loading := loading s; error := error s; filter := f |}).

(** [localStorage.setItem(k, v)] and [localStorage.getItem(k)].  The store
    is taken to accept every write. *)
Definition setItem (k v : string) (w : World) : World :=
  {| ui := ui w; localStorage := <[k := v]> (localStorage w);
     requests := requests w |}.
Definition getItem (k : string) (w : World) : option string :=
  localStorage w !! k.

(** Issuing a request appends it to the trace. *)
Definition send (r : Request) (w : World) : World :=
  {| ui := ui w; localStorage := localStorage w;
     requests := (requests w ++ [r])%list |}.

(** ** Strings and sorting as the platform provides them *)

(** [String.prototype.trim] strips the code points that ECMAScript calls
    WhiteSpace and LineTerminator from both ends.  A string holds its text
    as UTF-8, as a string literal does, so a code point up to U+FFFF is one
    to three bytes; every code point that counts as white space is. *)

(** WhiteSpace: tab, vertical tab, form feed, the zero width no-break space
    U+FEFF and the category Zs (space, no-break space U+00A0, U+1680,
    U+2000 to U+200A, U+202F, U+205F, U+3000).  LineTerminator: line feed,
    carriage return, U+2028, U+2029. *)
Definition is_white_space (n : N) : bool :=
  existsb (N.eqb n)
    [0x09; 0x0B; 0x0C; 0xFEFF; 0x20; 0xA0; 0x1680; 0x202F; 0x205F; 0x3000]%N
  || ((0x2000 <=? n)%N && (n <=? 0x200A)%N)
  || existsb (N.eqb n) [0x0A; 0x0D; 0x2028; 0x2029]%N.

(** The code point that one, two or three bytes encode, in shortest form. *)
Definition code_point (bytes : list ascii) : option N :=
  let continuation b := ((0x80 <=? b) && (b <=? 0xBF))%N in
  match N_of_ascii <$> bytes with
  | [a] => if (a <? 0x80)%N then Some a else None
  | [a; b] =>
      if ((0xC2 <=? a) && (a <=? 0xDF))%N && continuation b
      then Some ((a - 0xC0) * 0x40 + (b - 0x80))%N
      else None
  | [a; b; c] =>
      let n := ((a - 0xE0) * 0x1000 + (b - 0x80) * 0x40 + (c - 0x80))%N in
      if ((0xE0 <=? a) && (a <=? 0xEF))%N && continuation b && continuation c
         && (0x800 <=? n)%N
      then Some n
      else None
  | _ => None
  end.

(** The bytes are one code point of white space. *)
Definition is_space (bytes : list ascii) : bool :=
  match code_point bytes with
  | Some n => is_white_space n
  | None => false
  end.

(** Drop from the front every run of bytes that [space] accepts. *)
Fixpoint strip (space : list ascii → bool) (l : list ascii) : list ascii :=
  match l with
  | a :: l1 =>
      if space [a] then strip space l1
      else match l1 with
           | b :: l2 =>
               if space [a; b] then strip space l2
               else match l2 with
                    | c :: l3 =>
                        if space [a; b; c] then strip space l3 else l
                    | [] => l
                    end
           | [] => l
           end
  | [] => []
  end.

Definition trimStart (s : string) : string :=
  string_of_list_ascii (strip is_space (list_ascii_of_string s)).

(** The same from the back: the string is read in reverse, and so is every
    run of bytes before it is looked up. *)
Definition trimEnd (s : string) : string :=
  string_of_list_ascii
    (rev (strip (λ bytes, is_space (rev bytes))
            (rev (list_ascii_of_string s)))).

Definition trim (s : string) : string := trimEnd (trimStart s).

(** A string is truthy when it is not empty. *)
Definition nonempty (s : string) : bool := negb (String.eqb s EmptyString).

(** [Array.prototype.sort(cmp)] is a stable sort.  A comparator result of
    [NaN] (here [None]) counts as zero.  [place cmp a l] puts [a] in front
    of the already sorted [l], behind the elements that must precede it. *)
Section Sort.
Context {A : Type} (cmp : A → A → option Z).

Definition positive_result (r : option Z) : bool :=
  match r with Some n => (0 <? n)%Z | None => false end.

Fixpoint place (a : A) (l : list A) : list A :=
  match l with
  | [] => [a]
  | b :: rest =>
      if positive_result (cmp a b) then b :: place a rest else a :: l
  end.

Fixpoint sort (l : list A) : list A :=
  match l with
  | [] => []
  | a :: rest => place a (sort rest)
  end.
End Sort.

(** The name under which a value is looked up when it is used as a property
    key ([String(v)]). *)
Fixpoint to_key (v : JSON) : string :=
  match v with
  | JNull => "null"
  | JBool true => "true"
  | JBool false => "false"
  | JNum n => pretty n
  | JStr s => s
  | JArr l =>
      String.concat ","
        (List.map
           (λ x, match x with JNull => EmptyString | _ => to_key x end) l)
  | JObj _ => "[object Object]"
  end.

Definition to_key_opt (o : option JSON) : string :=
  match o with Some v => to_key v | None => "undefined" end.

(** ** The component with priorities ([Main.tsx]) *)

Section Component.
Context `{!Platform}.

Definition default_API_URL : string := "http://localhost:5000/api/v1/todo".

Definition API_URL : string :=
  match NEXT_PUBLIC_API_URL with
  | Some u => if nonempty u then u else default_API_URL
  | None => default_API_URL
  end.

Definition load_warning : string :=
  "Failed to load todos. Using local storage as fallback.".
Definition add_warning : string :=
  "Failed to add todo. Added to local storage only.".

(** [response.json()] after the [response.ok] test; [None] is a thrown
    error (rejected fetch, bad status, body that does not parse). *)
Definition json_of_reply (reply : Reply) : option JSON :=
  match reply with
  | NetworkError => None
  | Response status text => if ok status then JSON_parse text else None
  end.

(** [{ ...todo, priority: todo.priority || "medium" }] *)
Definition with_priority (todo : JSON) : option Obj :=
  p ← access_opt (get todo "priority");
  Some (<["priority" := js_or p (JStr "medium")]> (own_props todo)).

(** The [try] block of [fetchTodos] up to [setTodos]: the list it computes,
    or [None] when something in it throws. *)
Definition remote_todos (reply : Reply) : option (list Obj) :=
  data ← json_of_reply reply;
  field ← access_opt (get data "data");
  match js_or field (JArr []) with
  | JArr items => mapM with_priority items
  | _ => None
  end.

(** The callback of [parsedTodos.map] in the fallback. *)
Definition cached_entry (index : nat) (item : JSON) : option Obj :=
  if is_string item then
    Some {[ "id" := JNum (Z.of_nat index + 1);
            "title" := item;
            "completed" := JBool false;
            "priority" := JStr "medium" ]}
  else with_priority item.

(** What the fallback passes to [setTodos]; [None] when [setTodos] is not
    called at all (nothing stored, or the empty string).  The array test is
    [Array.isArray]; a callback that throws lands in the inner [catch]. *)
Definition cached_todos (stored : option string) : option (list Obj) :=
  match stored with
  | None => None
  | Some localTodos =>
      if nonempty localTodos then
        Some match JSON_parse localTodos with
             | Some (JArr parsedTodos) =>
                 default [] (mapM id (imap cached_entry parsedTodos))
             | Some _ => []
             | None => []
             end
      else None
  end.

Definition fetchTodos (reply : Reply) (w : World) : World :=
  let w := setLoading true w in
  let w := send {| url := API_URL; method := "GET";
                   headers := []; body := None |} w in
  let w :=
    match remote_todos reply with
    | Some todosWithPriority => setError None (setTodos todosWithPriority w)
    | None =>
        let w := setError (Some load_warning) w in
        match cached_todos (getItem "todos" w) with
        | Some l => setTodos l w
        | None => w
        end
    end in
  setLoading false w.

(** [JSON.stringify] of the array of todos. *)
Definition stringify_todos (l : list Obj) : string :=
  JSON_stringify (JArr (JObj <$> l)).

(** [{ ...data.data, priority }]; [None] when the [try] block throws
    before it. *)
Definition created_todo (reply : Reply) (priority : Priority) : option Obj :=
  data ← json_of_reply reply;
  field ← access_opt (get data "data");
  Some (<["priority" := JStr (Priority_str priority)]> (spread field)).

Definition addTodo (task : string) (priority : Priority)
    (reply : Reply) (w : World) : bool * World :=
  let todoForBackend : Obj := {[ "task" := JStr task ]} in
  let w' := send {| url := API_URL; method := "POST";
                    headers := [("Content-Type", "application/json")];
                    body := Some (JSON_stringify (JObj todoForBackend)) |} w in
  match created_todo reply priority with
  | Some newTodo =>
      let l := (todos (ui w) ++ [newTodo])%list in
      (true, setItem "todos" (stringify_todos l) (setTodos l w'))
  | None =>
      let w' := setError (Some add_warning) w' in
      let newTodo : Obj :=
        {[ "id" := JNum (Z.of_nat (length (todos (ui w))) + 1);
           "title" := JStr task;
           "completed" := JBool false;
           "priority" := JStr (Priority_str priority) ]} in
      let l := (todos (ui w) ++ [newTodo])%list in
      (false, setItem "todos" (stringify_todos l) (setTodos l w'))
  end.

(** [todo.id === id] for a number [id] *)
Definition id_is (id : Z) (todo : Obj) : bool :=
  match todo !! "id" with
  | Some (JNum n) => (n =? id)%Z
  | _ => false
  end.

Definition toggled (todo : Obj) : Obj :=
  <["completed" := JBool (negb (truthy_opt (todo !! "completed")))]> todo.

Definition toggleTodoCompletion (id : Z) (w : World) : World :=
  let updatedTodos :=
    List.map (λ todo, if id_is id todo then toggled todo else todo)
             (todos (ui w)) in
  setItem "todos" (stringify_todos updatedTodos) (setTodos updatedTodos w).

Definition deleteTodo (id : Z) (w : World) : World :=
  let updatedTodos :=
    List.filter (λ todo, negb (id_is id todo)) (todos (ui w)) in
  setItem "todos" (stringify_todos updatedTodos) (setTodos updatedTodos w).

Definition handleSubmit (reply : Reply) (w : World) : World :=
  if negb (nonempty (trim (input (ui w)))) then w
  else setInput EmptyString
       (snd (addTodo (input (ui w)) (priority (ui w)) reply w)).

Definition filteredTodos (s : State) : list Obj :=
  List.filter
    (λ todo,
       match filter s with
       | all => true
       | completed => truthy_opt (todo !! "completed")
       | active => negb (truthy_opt (todo !! "completed"))
       end)
    (todos s).

(** [{ high: 3, medium: 2, low: 1 }[k]] as a number.  A name the literal
    only inherits ([toString], [constructor]) gives a function, which the
    subtraction below turns into [NaN] just as it does [undefined]. *)
Definition priorityOrder (k : string) : option Z :=
  if String.eqb k "high" then Some 3%Z
  else if String.eqb k "medium" then Some 2%Z
  else if String.eqb k "low" then Some 1%Z
  else None.

Definition rank (todo : Obj) : option Z :=
  priorityOrder (to_key_opt (todo !! "priority")).

(** [priorityOrder[b.priority] - priorityOrder[a.priority]] *)
Definition by_priority (a b : Obj) : option Z :=
  match rank b, rank a with
  | Some rb, Some ra => Some (rb - ra)%Z
  | _, _ => None
  end.

Definition sortedTodos (s : State) : list Obj :=
  sort by_priority (filteredTodos s).

(** The effect that runs once when the component is mounted. *)
Definition mount (reply : Reply) (storage : gmap string string) : World :=
  fetchTodos reply (initial_world storage).
End Component.

(** ** The plain component (no priorities, no filters)

    Its loader stores whatever [data.data] holds and rebuilds every cached
    entry from its position.  Request, reading of the reply and warning are
    those of the component above. *)

Module Basic.
Record State : Type := mkState {
  todos : JSON;
  input : string;
  loading : bool;
  error : option string
}.

Record World : Type := mkWorld {
  ui : State;
  localStorage : gmap string string;
  requests : list Request
}.

Definition initial_state : State :=
  {| todos := JArr []; input := EmptyString; loading := true; error := None |}.

Section Component.
Context `{!Platform}.

Definition setTodos (v : JSON) (w : World) : World :=
  {| ui := {| todos := v; input := input (ui w);
              loading := loading (ui w); error := error (ui w) |};
     localStorage := localStorage w; requests := requests w |}.
Definition setLoading (b : bool) (w : World) : World :=
  {| ui := {| todos := todos (ui w); input := input (ui w);
              loading := b; error := error (ui w) |};
     localStorage := localStorage w; requests := requests w |}.
Definition setError (e : option string) (w : World) : World :=
  {| ui := {| todos := todos (ui w); input := input (ui w);
              loading := loading (ui w); error := e |};
     localStorage := localStorage w; requests := requests w |}.
Definition send (r : Request) (w : World) : World :=
  {| ui := ui w; localStorage := localStorage w;
     requests := (requests w ++ [r])%list |}.

(** [data.data || []], or [None] when reaching it throws. *)
Definition remote_todos (reply : Reply) : option JSON :=
  data ← json_of_reply reply;
  field ← access_opt (get data "data");
  Some (js_or field (JArr [])).

(** [({ id: index + 1, title, completed: false })] *)
Definition cached_entry (index : nat) (title : JSON) : JSON :=
  JObj {[ "id" := JNum (Z.of_nat index + 1);
          "title" := title;
          "completed" := JBool false ]}.

Definition cached_todos (stored : option string) : option JSON :=
  match stored with
  | None => None
  | Some localTodos =>
      if nonempty localTodos then
        Some match JSON_parse localTodos with
             | Some (JArr parsedTodos) => JArr (imap cached_entry parsedTodos)
             | Some _ => JArr []
             | None => JArr []
             end
      else None
  end.

Definition fetchTodos (reply : Reply) (w : World) : World :=
  let w := setLoading true w in
  let w := send {| url := API_URL; method := "GET";
                   headers := []; body := None |} w in
  let w :=
    match remote_todos reply with
    | Some l => setError None (setTodos l w)
    | None =>
        let w := setError (Some load_warning) w in
        match cached_todos (localStorage w !! "todos") with
        | Some l => setTodos l w
        | None => w
        end
    end in
  setLoading false w.
End Component.
End Basic.

(** ** A reference codec

    A printer of compact JSON text and a parser for it.  It stands for the
    browser's [JSON] object wherever a concrete one is needed. *)

Module ReferenceCodec.

Definition quote : ascii := "034"%char.
Definition backslash : ascii := "092"%char.

(** *** Printing *)

Fixpoint print_digits (d : Decimal.uint) : string :=
  match d with
  | Decimal.Nil => EmptyString
  | Decimal.D0 d => String "0" (print_digits d)
  | Decimal.D1 d => String "1" (print_digits d)
  | Decimal.D2 d => String "2" (print_digits d)
  | Decimal.D3 d => String "3" (print_digits d)
  | Decimal.D4 d => String "4" (print_digits d)
  | Decimal.D5 d => String "5" (print_digits d)
  | Decimal.D6 d => String "6" (print_digits d)
  | Decimal.D7 d => String "7" (print_digits d)
  | Decimal.D8 d => String "8" (print_digits d)
  | Decimal.D9 d => String "9" (print_digits d)
  end.

Definition print_number (n : Z) : string :=
  match Z.to_int n with
  | Decimal.Pos d => print_digits d
  | Decimal.Neg d => String "-" (print_digits d)
  end.

Fixpoint escape (s : string) : string :=
  match s with
  | EmptyString => EmptyString
  | String c rest =>
      if Ascii.eqb c quote then String backslash (String quote (escape rest))
      else if Ascii.eqb c backslash
           then String backslash (String backslash (escape rest))
      else String c (escape rest)
  end.

Definition print_string (s : string) : string :=
  String quote (escape s +:+ String quote EmptyString).

Fixpoint commas (parts : list string) : string :=
  match parts with
  | [] => EmptyString
  | [p] => p
  | p :: rest => p +:+ String "," (commas rest)
  end.

Definition print_member (kv : string * string) : string :=
  print_string kv.1 +:+ String ":" kv.2.

Fixpoint print (v : JSON) : string :=
  match v with
  | JNull => "null"
  | JBool true => "true"
  | JBool false => "false"
  | JNum n => print_number n
  | JStr s => print_string s
  | JArr l => String "[" (commas (print <$> l) +:+ "]")
  | JObj m =>
      String "{" (commas (print_member <$> map_to_list (print <$> m)) +:+ "}")
  end.

(** *** Parsing *)

Definition digit (c : ascii) : option (Decimal.uint → Decimal.uint) :=
  if Ascii.eqb c "0" then Some Decimal.D0
  else if Ascii.eqb c "1" then Some Decimal.D1
  else if Ascii.eqb c "2" then Some Decimal.D2
  else if Ascii.eqb c "3" then Some Decimal.D3
  else if Ascii.eqb c "4" then Some Decimal.D4
  else if Ascii.eqb c "5" then Some Decimal.D5
  else if Ascii.eqb c "6" then Some Decimal.D6
  else if Ascii.eqb c "7" then Some Decimal.D7
  else if Ascii.eqb c "8" then Some Decimal.D8
  else if Ascii.eqb c "9" then Some Decimal.D9
  else None.

(** The longest run of digits at the front, and what follows it. *)
Fixpoint read_digits (s : string) : Decimal.uint * string :=
  match s with
  | EmptyString => (Decimal.Nil, EmptyString)
  | String c rest =>
      match digit c with
      | Some d => let '(ds, r) := read_digits rest in (d ds, r)
      | None => (Decimal.Nil, s)
      end
  end.

Definition read_number (s : string) : option (Z * string) :=
  match s with
  | String "-" rest =>
      match read_digits rest with
      | (Decimal.Nil, _) => None
      | (d, r) => Some (Z.of_int (Decimal.Neg d), r)
      end
  | _ =>
      match read_digits s with
      | (Decimal.Nil, _) => None
      | (d, r) => Some (Z.of_int (Decimal.Pos d), r)
      end
  end.

(** The text of a string literal after its opening quote. *)
Fixpoint read_string (s : string) : option (string * string) :=
  match s with
  | EmptyString => None
  | String c rest =>
      if Ascii.eqb c quote then Some (EmptyString, rest)
      else if Ascii.eqb c backslash then
        match rest with
        | String e rest' =>
            if Ascii.eqb e quote || Ascii.eqb e backslash then
              '(t, r) ← read_string rest'; Some (String e t, r)
            else None
        | EmptyString => None
        end
      else '(t, r) ← read_string rest; Some (String c t, r)
  end.

(** [strip p s] removes the prefix [p] from [s]. *)
Fixpoint strip (p s : string) : option string :=
  match p, s with
  | EmptyString, _ => Some s
  | String a p', String b s' => if Ascii.eqb a b then strip p' s' else None
  | String _ _, EmptyString => None
  end.

(** Recursive descent.  Each call uses up one unit of [fuel]; the length
    of the text is always enough. *)
Fixpoint parse_value (fuel : nat) (s : string) : option (JSON * string) :=
  match fuel with
  | O => None
  | S fuel =>
      match read_number s with
      | Some (n, r) => Some (JNum n, r)
      | None =>
          match s with
          | EmptyString => None
          | String c r =>
              if Ascii.eqb c "n" then r' ← strip "ull" r; Some (JNull, r')
              else if Ascii.eqb c "t" then
                r' ← strip "rue" r; Some (JBool true, r')
              else if Ascii.eqb c "f" then
                r' ← strip "alse" r; Some (JBool false, r')
              else if Ascii.eqb c quote then
                '(t, r') ← read_string r; Some (JStr t, r')
              else if Ascii.eqb c "[" then
                match strip "]" r with
                | Some r' => Some (JArr [], r')
                | None => '(l, r') ← parse_items fuel r; Some (JArr l, r')
                end
              else if Ascii.eqb c "{" then
                match strip "}" r with
                | Some r' => Some (JObj ∅, r')
                | None =>
                    '(l, r') ← parse_members fuel r;
                    Some (JObj (list_to_map (reverse l)), r')
                end
              else None
          end
      end
  end
with parse_items (fuel : nat) (s : string) : option (list JSON * string) :=
  match fuel with
  | O => None
  | S fuel =>
      '(v, r) ← parse_value fuel s;
      match r with
      | String c r' =>
          if Ascii.eqb c "," then
            '(l, r'') ← parse_items fuel r'; Some (v :: l, r'')
          else if Ascii.eqb c "]" then Some ([v], r')
          else None
      | EmptyString => None
      end
  end
with parse_members (fuel : nat) (s : string)
    : option (list (string * JSON) * string) :=
  match fuel with
  | O => None
  | S fuel =>
      r ← strip (String quote EmptyString) s;
      '(k, r) ← read_string r;
      r ← strip ":" r;
      '(v, r) ← parse_value fuel r;
      match r with
      | String c r' =>
          if Ascii.eqb c "," then
            '(l, r'') ← parse_members fuel r'; Some ((k, v) :: l, r'')
          else if Ascii.eqb c "}" then Some ([(k, v)], r')
          else None
      | EmptyString => None
      end
  end.

Definition parse (s : string) : option JSON :=
  match parse_value (String.length s) s with
  | Some (v, EmptyString) => Some v
  | _ => None
  end.
(** The text that follows a number must not go on with a digit. *)
Definition no_digit_ahead (s : string) : Prop :=
  match s with
  | EmptyString => True
  | String c _ => digit c = None
  end.

(** Printing [v] in front of any text and parsing gives [v] and that text,
    whenever the fuel covers the printed length. *)
Definition roundtrips (v : JSON) : Prop :=
  ∀ fuel rest,
    String.length (print v) ≤ fuel →
    no_digit_ahead rest →
    parse_value fuel (print v +:+ rest) = Some (v, rest).
End ReferenceCodec.

(** ** Vocabulary of the properties *)

(** What the user can do while the load is still pending. *)
Inductive Action : Type :=
  | Submit (reply : Reply)
  | Toggle (id : Z)
  | Delete (id : Z)
  | TypeText (text : string)
  | ChoosePriority (p : Priority)
  | ChooseFilter (f : FilterChoice).

Section Vocabulary.
Context `{!Platform}.

Definition act (a : Action) (w : World) : World :=
  match a with
  | Submit reply => handleSubmit reply w
  | Toggle id => toggleTodoCompletion id w
  | Delete id => deleteTodo id w
  | TypeText text => setInput text w
  | ChoosePriority p => setPriority p w
  | ChooseFilter f => setFilter f w
  end.

Definition run (actions : list Action) (w : World) : World :=
  foldl (λ w a, act a w) w actions.

(** The cache holds a text that parses to the list in memory. *)
Definition mirrored (w : World) : Prop :=
  ∃ s, getItem "todos" w = Some s
       ∧ JSON_parse s = Some (JArr (JObj <$> todos (ui w))).

(** Nothing is listed yet, or the cache holds the list. *)
Definition lockstep (w : World) : Prop :=
  todos (ui w) = [] ∨ mirrored w.

(** The call failed on the wire: the promise was rejected or the status is
    outside 200..299. *)
Definition failed_call (reply : Reply) : Prop :=
  reply = NetworkError
  ∨ ∃ status text, reply = Response status text ∧ ok status = false.

(** The remote read failed: something in the [try] block of [fetchTodos]
    threw. *)
Definition read_fails (reply : Reply) : Prop := remote_todos reply = None.

Definition get_request : Request :=
  {| url := API_URL; method := "GET"; headers := []; body := None |}.

Definition post_request (task : string) : Request :=
  {| url := API_URL;
     method := "POST";
     headers := [("Content-Type", "application/json")];
     body := Some (JSON_stringify (JObj {[ "task" := JStr task ]})) |}.
End Vocabulary.

(** A task as the data model has it: its [completed] flag is a boolean. *)
Definition has_boolean_completed (todo : Obj) : Prop :=
  ∃ b, todo !! "completed" = Some (JBool b).

Definition toggle_one (id : Z) (todo : Obj) : Obj :=
  if id_is id todo then toggled todo else todo.

(** A task whose priority is one of the three tags. *)
Definition prioritized (todo : Obj) : Prop :=
  ∃ p : Priority, todo !! "priority" = Some (JStr (Priority_str p)).

Definition level (p : Priority) : Z :=
  match p with high => 3 | medium => 2 | low => 1 end.

(** [a] may stand before [b]: its rank is at least that of [b]. *)
Definition outranks (a b : Obj) : Prop :=
  ∃ ra rb, rank a = Some ra ∧ rank b = Some rb ∧ (rb ≤ ra)%Z.

Definition has_rank (r : option Z) (todo : Obj) : bool :=
  bool_decide (rank todo = r).

(** The record built for a bare string found at [index] in the cache. *)
Definition synthesized (index : nat) (title : string) : Obj :=
  {[ "id" := JNum (Z.of_nat index + 1);
     "title" := JStr title;
     "completed" := JBool false;
     "priority" := JStr "medium" ]}.

(** An object with its priority kept when it has a truthy one and set to
    ["medium"] otherwise. *)
Definition default_priority (m : Obj) : Obj :=
  if truthy_opt (m !! "priority") then m
  else <["priority" := JStr "medium"]> m.

(** What [{ ...item, priority: item.priority || "medium" }] is for an
    [item] other than [null]: an object with its priority defaulted, or the
    own properties of anything else with the default priority added. *)
Definition with_default_priority (item : JSON) : Obj :=
  match item with
  | JObj m => default_priority m
  | other => <["priority" := JStr "medium"]> (own_props other)
  end.

(** What the fallback makes of the cached entry at [index]. *)
Definition normalized_entry (index : nat) (item : JSON) : Obj :=
  match item with
  | JStr s => synthesized index s
  | other => with_default_priority other
  end.

(** The same normalisation in the words of the specification: only a
    priority that is missing is filled in. *)
Definition fill_missing_priority (m : Obj) : Obj :=
  match m !! "priority" with
  | Some _ => m
  | None => <["priority" := JStr "medium"]> m
  end.

Definition specified_entry (index : nat) (item : JSON) : option Obj :=
  match item with
  | JStr s => Some (synthesized index s)
  | JObj m => Some (fill_missing_priority m)
  | _ => None
  end.

(** The list the specification promises for a cached array: as long as the
    array, with every string and every object normalised as above. *)
Definition specified_fallback (cached : list JSON) (result : list Obj) : Prop :=
  length result = length cached
  ∧ ∀ i item expected,
      cached !! i = Some item →
      specified_entry i item = Some expected →
      result !! i = Some expected.

(** The outcome the specification promises for a [data] array sent by the
    server: its objects with a missing priority filled in, and no warning. *)
Definition specified_remote (items : list JSON) (s : State) : Prop :=
  length (todos s) = length items
  ∧ (∀ i m, items !! i = Some (JObj m) →
       todos s !! i = Some (fill_missing_priority m))
  ∧ error s = None.

(** [v.data] can be read and is missing or falsy. *)
Definition no_data (v : JSON) : Prop :=
  match get v "data" with
  | Throws => False
  | Undefined => True
  | Value d => truthy d = false
  end.

(** A measure for induction over values. *)
Fixpoint json_size (v : JSON) : nat :=
  match v with
  | JArr l => S (sum_list (json_size <$> l))
  | JObj m => S (map_fold (λ _ n acc, n + acc) 0 (json_size <$> m))
  | _ => 1
  end.

(** ** The footer and the variant with filters only *)

(** [todos.filter(todo => todo.completed).length] *)
Definition completedCount (s : State) : nat :=
  length (List.filter (λ todo : Obj, truthy_opt (todo !! "completed")) (todos s)).

(** The line under the list, "[n] of [m] tasks completed"; it is rendered
    only when [todos.length > 0]. *)
Definition summary (s : State) : option (nat * nat) :=
  if (0 <? length (todos s))%nat then Some (completedCount s, length (todos s))
  else None.

(** The second component of [Main.tsx]: filters, no priorities.  Its loader
    keeps [data.data] as it comes and rebuilds every cached entry as
    [{id, title, completed}].  A property whose value is [undefined] is left
    out of the object: reading it gives [undefined] either way, and
    [JSON.stringify] drops it. *)
Module Filtered.

(** [typeof v === 'object'] *)
Definition is_object_type (v : JSON) : bool :=
  match v with JNull | JArr _ | JObj _ => true | _ => false end.

(** [typeof title === 'string' ? title : title.title] *)
Definition entry_title (title : JSON) : Access :=
  if is_string title then Value title else get title "title".

(** [typeof title === 'object' ? title.completed || false : false] *)
Definition entry_completed (title : JSON) : option JSON :=
  if is_object_type title then
    c ← access_opt (get title "completed"); Some (js_or c (JBool false))
  else Some (JBool false).

(** The callback of [parsedTodos.map]; [None] when it throws. *)
Definition cached_entry (index : nat) (title : JSON) : option Obj :=
  t ← access_opt (entry_title title);
  c ← entry_completed title;
  let base : Obj :=
    {[ "id" := JNum (Z.of_nat index + 1); "completed" := c ]} in
  Some match t with
       | Some v => <["title" := v]> base
       | None => base
       end.

Record State : Type := mkState {
  todos : JSON;
  input : string;
  loading : bool;
  error : option string;
  filter : FilterChoice
}.

Record World : Type := mkWorld {
  ui : State;
  localStorage : gmap string string;
  requests : list Request
}.

Definition initial_state : State :=
  {| todos := JArr []; input := EmptyString; loading := true;
     error := None; filter := all |}.

Definition setTodos (v : JSON) (w : World) : World :=
  {| ui := {| todos := v; input := input (ui w); loading := loading (ui w);
              error := error (ui w); filter := filter (ui w) |};
     localStorage := localStorage w; requests := requests w |}.
Definition setLoading (b : bool) (w : World) : World :=
  {| ui := {| todos := todos (ui w); input := input (ui w); loading := b;
              error := error (ui w); filter := filter (ui w) |};
     localStorage := localStorage w; requests := requests w |}.
Definition setError (e : option string) (w : World) : World :=
  {| ui := {| todos := todos (ui w); input := input (ui w);
              loading := loading (ui w); error := e;
              filter := filter (ui w) |};
     localStorage := localStorage w; requests := requests w |}.
Definition send (r : Request) (w : World) : World :=
  {| ui := ui w; localStorage := localStorage w;
     requests := (requests w ++ [r])%list |}.

Section Component.
Context `{!Platform}.

(** What the fallback passes to [setTodos]; [None] when it is not called. *)
Definition cached_todos (stored : option string) : option (list Obj) :=
  match stored with
  | None => None
  | Some localTodos =>
      if nonempty localTodos then
        Some match JSON_parse localTodos with
             | Some (JArr parsedTodos) =>
                 default [] (mapM id (imap cached_entry parsedTodos))
             | Some _ => []
             | None => []
             end
      else None
  end.

Definition fetchTodos (reply : Reply) (w : World) : World :=
  let w := setLoading true w in
  let w := send {| url := API_URL; method := "GET";
                   headers := []; body := None |} w in
  let w :=
    match Basic.remote_todos reply with
    | Some l => setError None (setTodos l w)
    | None =>
        let w := setError (Some load_warning) w in
        match cached_todos (localStorage w !! "todos") with
        | Some l => setTodos (JArr (JObj <$> l)) w
        | None => w
        end
    end in
  setLoading false w.
End Component.
End Filtered.

(** ** More vocabulary *)

(** The task at position [i] carries the id [i + 1]. *)
Definition ids_by_position (l : list Obj) : Prop :=
  ∀ i todo, l !! i = Some todo → todo !! "id" = Some (JNum (Z.of_nat i + 1)).

(** The task has a priority that counts as true. *)
Definition has_priority (todo : Obj) : Prop :=
  truthy_opt (todo !! "priority") = true.

Section MoreVocabulary.
Context `{!Platform}.

(** An action that rewrites list and cache: a toggle, a delete, or a submit
    of a text that is not blank. *)
Definition rewrites (a : Action) (w : World) : Prop :=
  match a with
  | Submit _ => trim (input (ui w)) ≠ EmptyString
  | Toggle _ | Delete _ => True
  | _ => False
  end.

(** An action that cannot bring in or take out an id of its own making:
    anything but a delete and a create call that the server answers. *)
Definition keeps_numbering (a : Action) : Prop :=
  match a with
  | Submit reply => failed_call reply
  | Delete _ => False
  | _ => True
  end.

(** The create request of a text that is not blank. *)
Definition is_create_request (r : Request) : Prop :=
  ∃ task, trim task ≠ EmptyString ∧ r = post_request task.

(** The create call was answered: a 2xx status and a body that parses to
    something other than [null]. *)
Definition answered (reply : Reply) (data : JSON) : Prop :=
  ∃ status text,
    reply = Response status text
    ∧ (200 ≤ status ≤ 299)%Z
    ∧ JSON_parse text = Some data
    ∧ data ≠ JNull.
End MoreVocabulary.

(** The text is white space and nothing else: its bytes are a sequence of
    code points of white space. *)
Definition blank (s : string) : Prop :=
  ∃ runs : list (list ascii),
    Forall (λ bytes, is_space bytes = true) runs
    ∧ list_ascii_of_string s = concat runs.

Section Sessions.
Context `{!Platform}.

(** [fetchTodos] up to its [await]: the flag goes up and the request goes
    out. *)
Definition begin_load (w : World) : World :=
  send get_request (setLoading true w).

(** [fetchTodos] from the [await] on, run when the reply is there, over the
    state and the store as they are by then. *)
Definition settle (reply : Reply) (w : World) : World :=
  let w :=
    match remote_todos reply with
    | Some todosWithPriority => setError None (setTodos todosWithPriority w)
    | None =>
        let w := setError (Some load_warning) w in
        match cached_todos (getItem "todos" w) with
        | Some l => setTodos l w
        | None => w
        end
    end in
  setLoading false w.

(** What happens in a visit: the user does something, or the load that the
    mount began settles.  The form is there while the list loads, so the
    two come in any order. *)
Inductive Event : Type :=
  | Does (a : Action)
  | Settles (reply : Reply).

Definition happen (e : Event) (w : World) : World :=
  match e with
  | Does a => act a w
  | Settles reply => settle reply w
  end.

(** A visit: the mount begins the load, then the events come one by one. *)
Definition visit (storage : gmap string string) (events : list Event) : World :=
  foldl (λ w e, happen e w) (begin_load (initial_world storage)) events.
End Sessions.

(** ** Sample data *)

(** Three tasks. *)
Definition walk_dog : Obj :=
  {[ "id" := JNum 1; "title" := JStr "Walk dog";
     "completed" := JBool false; "priority" := JStr "high" ]}.
Definition pay_rent : Obj :=
  {[ "id" := JNum 2; "title" := JStr "Pay rent";
     "completed" := JBool true; "priority" := JStr "medium" ]}.
Definition call_mum : Obj :=
  {[ "id" := JNum 3; "title" := JStr "Call mum";
     "completed" := JBool false; "priority" := JStr "high" ]}.

(** A world that lists [l], with [text] typed in and [storage] as store. *)
Definition world_of (l : list Obj) (text : string)
    (storage : gmap string string) : World :=
  {| ui := {| todos := l; input := text; priority := medium;
              loading := false; error := None; filter := all |};
     localStorage := storage; requests := [] |}.

(** A cached object without a priority, and one whose priority is the
    empty string. *)
Definition legacy_entry : Obj :=
  {[ "id" := JNum 7; "title" := JStr "Buy milk"; "completed" := JBool true ]}.
Definition blank_priority_entry : Obj :=
  {[ "id" := JNum 5; "title" := JStr "Fix bike";
     "completed" := JBool false; "priority" := JStr EmptyString ]}.

(** The text the reference codec prints for a value. *)
Definition text_of (v : JSON) : string := ReferenceCodec.print v.

(** White space beyond ASCII, in UTF-8: a no-break space (U+00A0), an
    ideographic space (U+3000), a line separator (U+2028) and a zero width
    no-break space (U+FEFF). *)
Definition wide_blank : string :=
  string_of_list_ascii
    [ "194"; "160";  "227"; "128"; "128";  "226"; "128"; "168";
      "239"; "187"; "191" ]%char.

(** The body of a reply whose [data] field is [data]. *)
Definition body_of (data : JSON) : string :=
  text_of (JObj {[ "data" := data ]}).

(** * Facts *)

(** ** Induction over values *)

Lemma sum_list_elem (l : list nat) n : n ∈ l → n ≤ sum_list l.
Proof. induction 1; simpl; lia. Qed.

Lemma map_fold_sum_elem (m : gmap string nat) k n :
  m !! k = Some n → n ≤ map_fold (λ _ n acc, n + acc) 0 m.
Proof.
  intros Hk. rewrite <-(insert_delete_id m k n) by done.
  rewrite map_fold_insert_L.
  - lia.
  - intros; lia.
  - apply lookup_delete_eq.
Qed.

Lemma JSON_ind (P : JSON → Prop) :
  P JNull →
  (∀ b, P (JBool b)) →
  (∀ n, P (JNum n)) →
  (∀ s, P (JStr s)) →
  (∀ l, Forall P l → P (JArr l)) →
  (∀ m, map_Forall (λ _, P) m → P (JObj m)) →
  ∀ v, P v.
Proof.
  intros Hnull Hbool Hnum Hstr Harr Hobj v.
  remember (json_size v) as n eqn:Hn. revert v Hn.
  induction (lt_wf n) as [n _ IH]. intros [| | | |l|m] ->; auto.
  - apply Harr, Forall_forall. intros x Hx.
    apply (IH (json_size x)); [|done]. simpl.
    assert (json_size x ≤ sum_list (json_size <$> l)); [|lia].
    by apply sum_list_elem, list_elem_of_fmap_2.
  - apply Hobj. intros k x Hx.
    apply (IH (json_size x)); [|done]. simpl.
    assert (json_size x ≤ map_fold (λ _ n acc, n + acc) 0 (json_size <$> m));
      [|lia].
    apply (map_fold_sum_elem _ k). by rewrite lookup_fmap, Hx.
Qed.

(** ** The reference codec gives back what it printed *)

Module ReferenceCodecFacts.
Import ReferenceCodec.

#[local] Arguments String.append !_ _ / : simpl nomatch.
#[local] Arguments commas : simpl never.

Lemma append_assoc (a b c : string) : (a +:+ b) +:+ c = a +:+ (b +:+ c).
Proof. induction a as [|x a IH]; simpl; [done | by rewrite IH]. Qed.

Lemma length_append (a b : string) :
  String.length (a +:+ b) = String.length a + String.length b.
Proof. induction a as [|x a IH]; simpl; [done | by rewrite IH]. Qed.

Lemma read_digits_stop s : no_digit_ahead s → read_digits s = (Decimal.Nil, s).
Proof. destruct s as [|c s]; simpl; [done | by intros ->]. Qed.

Lemma read_digits_print d rest :
  no_digit_ahead rest → read_digits (print_digits d +:+ rest) = (d, rest).
Proof.
  intros Hrest.
  induction d as [|d IH|d IH|d IH|d IH|d IH|d IH|d IH|d IH|d IH|d IH];
    simpl; [by apply read_digits_stop | by rewrite IH ..].
Qed.

Lemma to_int_digits n :
  match Z.to_int n with
  | Decimal.Pos d | Decimal.Neg d => d ≠ Decimal.Nil
  end.
Proof.
  destruct n as [|p|p]; simpl; [done | apply Unsigned.to_uint_nonnil ..].
Qed.

Lemma read_number_print n rest :
  no_digit_ahead rest → read_number (print_number n +:+ rest) = Some (n, rest).
Proof.
  intros Hrest. unfold print_number.
  pose proof (to_int_digits n) as Hd. pose proof (DecimalZ.of_to n) as Hn.
  destruct (Z.to_int n) as [d|d].
  - unfold read_number.
    assert (read_digits (print_digits d +:+ rest) = (d, rest)) as Hr
      by by apply read_digits_print.
    destruct d; try done; simpl in *; rewrite ?Hr;
      simplify_eq/=; by rewrite ?read_digits_print.
  - simpl. rewrite read_digits_print by done. by destruct d; simplify_eq/=.
Qed.

Lemma read_string_escape s rest :
  read_string (escape s +:+ String quote rest) = Some (s, rest).
Proof.
  induction s as [|c s IH]; simpl; [done|].
  destruct (Ascii.eqb_spec c quote) as [->|Hq]; simpl.
  { by rewrite IH. }
  destruct (Ascii.eqb_spec c backslash) as [->|Hb]; simpl.
  { by rewrite IH. }
  apply Ascii.eqb_neq in Hq, Hb. by rewrite Hq, Hb, IH.
Qed.

Lemma append_empty_r (a : string) : a +:+ "" = a.
Proof. induction a as [|x a IH]; simpl; [done | by rewrite IH]. Qed.

Lemma print_digits_head d :
  d ≠ Decimal.Nil →
  ∃ c s, print_digits d = String c s ∧ is_Some (digit c).
Proof. destruct d; [done | intros _; simpl; eauto ..]. Qed.

Lemma print_number_head n :
  ∃ c s, print_number n = String c s ∧ (c = "-"%char ∨ is_Some (digit c)).
Proof.
  unfold print_number. pose proof (to_int_digits n) as Hd.
  destruct (Z.to_int n) as [d|d]; [|by eauto].
  destruct (print_digits_head d Hd) as (c & s & -> & ?); eauto.
Qed.

Lemma print_head v :
  ∃ c s, print v = String c s ∧ c ≠ "]"%char.
Proof.
  destruct v as [|[]|n|s|l|m]; simpl; try by eauto.
  destruct (print_number_head n) as (c & s & -> & [->|[f Hf]]);
    eexists _, _; (split; [done|]); [done|].
  by intros ->.
Qed.

Lemma strip_bracket_print v rest : strip "]" (print v +:+ rest) = None.
Proof.
  destruct (print_head v) as (c & s & -> & Hc).
  change (strip "]" (String c s +:+ rest))
    with (if Ascii.eqb "]" c then Some (s +:+ rest) else None).
  by destruct (Ascii.eqb_spec "]" c) as [<-|].
Qed.

Lemma commas_one p : commas [p] = p.
Proof. done. Qed.

Lemma commas_cons p q r :
  commas (p :: q :: r) = p +:+ String "," (commas (q :: r)).
Proof. done. Qed.

Lemma parse_items_unfold fuel s :
  parse_items (S fuel) s =
    '(v, r) ← parse_value fuel s;
    match r with
    | String c r' =>
        if Ascii.eqb c "," then
          '(l, r'') ← parse_items fuel r'; Some (v :: l, r'')
        else if Ascii.eqb c "]" then Some ([v], r')
        else None
    | EmptyString => None
    end.
Proof. done. Qed.

Lemma parse_members_unfold fuel k p tail :
  parse_members (S fuel) (print_member (k, p) +:+ tail) =
    '(v, r) ← parse_value fuel (p +:+ tail);
    match r with
    | String c r' =>
        if Ascii.eqb c "," then
          '(l, r'') ← parse_members fuel r'; Some ((k, v) :: l, r'')
        else if Ascii.eqb c "}" then Some ([(k, v)], r')
        else None
    | EmptyString => None
    end.
Proof.
  unfold print_member, print_string. simpl.
  rewrite !append_assoc. simpl. by rewrite read_string_escape.
Qed.

Lemma length_print_member k p :
  String.length (print_member (k, p)) =
    String.length (escape k) + String.length p + 3.
Proof.
  unfold print_member, print_string. simpl.
  repeat (rewrite length_append; simpl). lia.
Qed.

Lemma parse_items_print l x :
  Forall roundtrips (x :: l) →
  ∀ fuel rest,
    String.length (commas (print <$> x :: l)) + 1 ≤ fuel →
    parse_items fuel (commas (print <$> x :: l) +:+ String "]" rest)
      = Some (x :: l, rest).
Proof.
  revert x. induction l as [|y l IH]; intros x [Hx Hall]%Forall_cons;
    intros [|fuel] rest Hfuel; try lia; rewrite parse_items_unfold.
  - rewrite fmap_cons, fmap_nil, commas_one in *.
    by rewrite Hx by (done || lia).
  - specialize (IH y Hall fuel rest).
    rewrite !fmap_cons, commas_cons in *.
    rewrite append_assoc, length_append in *. simpl in Hfuel |- *.
    rewrite Hx by (done || lia). simpl.
    rewrite IH by lia. done.
Qed.

Lemma parse_members_print (l : list (string * JSON)) kv :
  Forall (λ kv, roundtrips kv.2) (kv :: l) →
  ∀ fuel rest,
    String.length
      (commas (print_member <$> (prod_map id print <$> kv :: l))) + 1 ≤ fuel →
    parse_members fuel
      (commas (print_member <$> (prod_map id print <$> kv :: l))
         +:+ String "}" rest) = Some (kv :: l, rest).
Proof.
  revert kv. induction l as [|y l IH]; intros [k x] [Hx Hall]%Forall_cons;
    intros [|fuel] rest Hfuel; try lia.
  - simpl in Hx. rewrite !fmap_cons, !fmap_nil, commas_one in *.
    change (prod_map id print (k, x)) with (k, print x) in *.
    rewrite parse_members_unfold. rewrite length_print_member in Hfuel.
    by rewrite Hx by (done || lia).
  - simpl in Hx. specialize (IH y Hall fuel rest).
    rewrite !fmap_cons, commas_cons in *.
    change (prod_map id print (k, x)) with (k, print x) in *.
    rewrite append_assoc, length_append, length_print_member in *.
    simpl in Hfuel. rewrite parse_members_unfold.
    change (String "," ?a +:+ ?b) with (String "," (a +:+ b)).
    rewrite Hx by (done || lia). simpl.
    rewrite IH by lia. done.
Qed.

Lemma print_nonempty v : 1 ≤ String.length (print v).
Proof. destruct (print_head v) as (c & s & -> & _). simpl. lia. Qed.

Lemma parse_value_array fuel s :
  parse_value (S fuel) (String "[" s) =
    match strip "]" s with
    | Some r' => Some (JArr [], r')
    | None => '(l, r') ← parse_items fuel s; Some (JArr l, r')
    end.
Proof. done. Qed.

Lemma parse_value_object fuel s :
  parse_value (S fuel) (String "{" s) =
    match strip "}" s with
    | Some r' => Some (JObj ∅, r')
    | None =>
        '(l, r') ← parse_members fuel s;
        Some (JObj (list_to_map (reverse l)), r')
    end.
Proof. done. Qed.

Lemma print_array l : print (JArr l) = String "[" (commas (print <$> l) +:+ "]").
Proof. done. Qed.

Lemma print_object m :
  print (JObj m) =
    String "{"
      (commas (print_member <$> (prod_map id print <$> map_to_list m)) +:+ "}").
Proof. simpl. by rewrite map_to_list_fmap. Qed.

Lemma bracketed (o c : ascii) (a rest : string) :
  String o (a +:+ String c "") +:+ rest = String o (a +:+ String c rest).
Proof. simpl. by rewrite append_assoc. Qed.

Lemma length_bracketed (o c : ascii) (a : string) :
  String.length (String o (a +:+ String c "")) = String.length a + 2.
Proof. simpl. rewrite length_append. simpl. lia. Qed.

Lemma strip_bracket_commas x l tail :
  strip "]" (commas (print <$> x :: l) +:+ tail) = None.
Proof.
  destruct l as [|y l]; rewrite !fmap_cons.
  - by rewrite fmap_nil, commas_one, strip_bracket_print.
  - by rewrite commas_cons, append_assoc, strip_bracket_print.
Qed.

Lemma strip_brace_commas kv l tail :
  strip "}" (commas (print_member <$> kv :: l) +:+ tail) = None.
Proof.
  destruct kv as [k p], l as [|y l]; rewrite !fmap_cons.
  - by rewrite fmap_nil, commas_one.
  - by rewrite commas_cons.
Qed.

Lemma parse_value_print v : roundtrips v.
Proof.
  induction v as [|b|n|s|l IH|m IH] using JSON_ind;
    (intros fuel rest Hfuel Hrest;
     match type of Hfuel with
     | String.length (print ?v) ≤ _ => pose proof (print_nonempty v)
     end;
     destruct fuel as [|fuel]; [lia|]).
  - done.
  - by destruct b.
  - simpl. by rewrite read_number_print.
  - simpl. unfold print_string. simpl.
    rewrite append_assoc. simpl. by rewrite read_string_escape.
  - rewrite print_array, ?length_bracketed, ?bracketed in *.
    rewrite parse_value_array. destruct l as [|x l]; [done|].
    rewrite strip_bracket_commas, parse_items_print; [done..|lia].
  - rewrite print_object, ?length_bracketed, ?bracketed in *.
    rewrite parse_value_object.
    destruct (map_to_list m) as [|kv l] eqn:Hm.
    { apply map_to_list_empty_iff in Hm as ->. done. }
    rewrite (fmap_cons (prod_map id print)), strip_brace_commas.
    rewrite <-(fmap_cons (prod_map id print)).
    rewrite parse_members_print; [| |lia].
    + simpl. do 3 f_equal. rewrite <-Hm.
      rewrite <-(list_to_map_to_list m) at 2.
      apply list_to_map_proper; [|apply reverse_Permutation].
      rewrite fmap_reverse, reverse_Permutation.
      apply NoDup_fst_map_to_list.
    + rewrite <-Hm. apply Forall_forall. intros [k x] Hkx. simpl.
      apply (IH k). by apply elem_of_map_to_list.
Qed.

Lemma parse_print v : parse (print v) = Some v.
Proof.
  unfold parse. rewrite <-(append_empty_r (print v)) at 2.
  by rewrite parse_value_print.
Qed.

End ReferenceCodecFacts.

#[global] Instance reference_platform : Platform := {|
  JSON_stringify := ReferenceCodec.print;
  JSON_parse := ReferenceCodec.parse;
  JSON_parse_stringify := ReferenceCodecFacts.parse_print;
  JSON_parse_empty := eq_refl;
  NEXT_PUBLIC_API_URL := None
|}.

(** * The component *)

Section ComponentFacts.
Context `{!Platform}.

(** ** The mutators *)

Lemma failed_call_throws reply : failed_call reply → json_of_reply reply = None.
Proof. by intros [->|(status & text & -> & Hok)]; simpl; rewrite ?Hok. Qed.

Lemma stringify_todos_parse l :
  JSON_parse (stringify_todos l) = Some (JArr (JObj <$> l)).
Proof. apply JSON_parse_stringify. Qed.

Lemma addTodo_writes task p reply w :
  ∃ newTodo,
    let l := todos (ui w) ++ [newTodo] in
    todos (ui (addTodo task p reply w).2) = l
    ∧ getItem "todos" (addTodo task p reply w).2 = Some (stringify_todos l).
Proof.
  unfold addTodo. destruct (created_todo reply p) as [newTodo|];
    eexists; simpl; (split; [done|]); unfold getItem; simpl;
    by rewrite lookup_insert_eq.
Qed.

(** C3.  When the create call fails (rejected promise or a status outside
    2xx) on a list of length [n], [addTodo] returns [false] (it returns, it
    does not throw), the list in memory is the old one followed by the record
    [{id: n+1, title: task, completed: false, priority}], the cache holds the
    serialisation of that whole list, and the warning is set to a text that
    is not empty. *)
Theorem addTodo_failure task p reply w :
  failed_call reply →
  let newTodo : Obj :=
    {[ "id" := JNum (Z.of_nat (length (todos (ui w))) + 1);
       "title" := JStr task;
       "completed" := JBool false;
       "priority" := JStr (Priority_str p) ]} in
  let l := todos (ui w) ++ [newTodo] in
  let result := addTodo task p reply w in
  result.1 = false
  ∧ todos (ui result.2) = l
  ∧ getItem "todos" result.2 = Some (stringify_todos l)
  ∧ JSON_parse (stringify_todos l) = Some (JArr (JObj <$> l))
  ∧ error (ui result.2) = Some add_warning
  ∧ add_warning ≠ EmptyString.
Proof.
  intros Hfail%failed_call_throws. unfold addTodo, created_todo.
  rewrite Hfail. simpl. unfold getItem. simpl.
  rewrite lookup_insert_eq. split_and!; try done.
  apply stringify_todos_parse.
Qed.

(** C2.  After [addTodo] (whatever the reply, so on both of its branches),
    after [toggleTodoCompletion] and after [deleteTodo], the text stored
    under ["todos"] parses to exactly the list that is now in memory, element
    for element and in the same order. *)
Theorem mutation_mirrors_cache w :
  (∀ task p reply, mirrored (addTodo task p reply w).2)
  ∧ (∀ id, mirrored (toggleTodoCompletion id w))
  ∧ (∀ id, mirrored (deleteTodo id w)).
Proof.
  split_and!.
  - intros task p reply.
    destruct (addTodo_writes task p reply w) as (newTodo & Hl & Hc).
    eexists. split; [done|]. rewrite Hl. apply stringify_todos_parse.
  - intros id. eexists. split; [apply lookup_insert_eq|].
    apply stringify_todos_parse.
  - intros id. eexists. split; [apply lookup_insert_eq|].
    apply stringify_todos_parse.
Qed.

Lemma addTodo_requests task p reply w :
  requests (addTodo task p reply w).2 = requests w ++ [post_request task].
Proof. unfold addTodo. by destruct (created_todo reply p). Qed.

(** C9.  Two calls of [addTodo] with the same title send the same request,
    whatever the two priorities and whatever the replies: the one POST
    whose body is the serialisation of [{ task: title }].  The priority is
    not part of what is sent. *)
Theorem addTodo_request_ignores_priority task p1 p2 reply1 reply2 w :
  let sent p reply := requests (addTodo task p reply w).2 in
  sent p1 reply1 = sent p2 reply2
  ∧ sent p1 reply1 =
      requests w ++ [post_request task]
  ∧ post_request task =
      {| url := API_URL;
         method := "POST";
         headers := [("Content-Type", "application/json")];
         body := Some (JSON_stringify (JObj {[ "task" := JStr task ]})) |}.
Proof.
  cbv beta zeta. by rewrite !addTodo_requests.
Qed.

Lemma id_is_toggled id todo : id_is id (toggled todo) = id_is id todo.
Proof. unfold id_is, toggled. by rewrite lookup_insert_ne. Qed.

Lemma toggled_twice todo :
  has_boolean_completed todo → toggled (toggled todo) = todo.
Proof.
  intros [b Hb]. unfold toggled. rewrite lookup_insert_eq, Hb. simpl.
  rewrite insert_insert_eq, negb_involutive. by apply insert_id.
Qed.

Lemma toggle_one_twice id todo :
  has_boolean_completed todo → toggle_one id (toggle_one id todo) = todo.
Proof.
  intros Hb. unfold toggle_one. destruct (id_is id todo) eqn:Hid.
  - by rewrite id_is_toggled, Hid, toggled_twice.
  - by rewrite Hid.
Qed.

Lemma toggle_one_twice_truth id (todo : Obj) :
  truthy_opt (toggle_one id (toggle_one id todo) !! "completed")
    = truthy_opt (todo !! "completed").
Proof.
  unfold toggle_one. destruct (id_is id todo) eqn:Hid.
  - rewrite id_is_toggled, Hid. unfold toggled.
    rewrite !lookup_insert_eq. simpl. apply negb_involutive.
  - by rewrite Hid.
Qed.

Lemma todos_toggle id w :
  todos (ui (toggleTodoCompletion id w)) = toggle_one id <$> todos (ui w).
Proof. done. Qed.

(** C6.  Toggling the same id twice in a row gives every task the
    [completed] value it had before: as a truth value for any list at all,
    and exactly (the whole list comes back) for tasks whose flag is the
    boolean the data model says it is. *)
Theorem toggle_twice_restores id w :
  let w'' := toggleTodoCompletion id (toggleTodoCompletion id w) in
  (λ todo : Obj, truthy_opt (todo !! "completed")) <$> todos (ui w'')
    = (λ todo : Obj, truthy_opt (todo !! "completed")) <$> todos (ui w)
  ∧ (Forall has_boolean_completed (todos (ui w)) →
     (λ todo : Obj, todo !! "completed") <$> todos (ui w'')
       = (λ todo : Obj, todo !! "completed") <$> todos (ui w)
     ∧ todos (ui w'') = todos (ui w)).
Proof.
  cbv zeta. rewrite !todos_toggle. split.
  - rewrite <-!list_fmap_compose. apply list_fmap_ext.
    intros i todo Hi. apply toggle_one_twice_truth.
  - intros Hall.
    cut (toggle_one id <$> (toggle_one id <$> todos (ui w)) = todos (ui w)).
    { by intros ->. }
    induction Hall as [|todo l Htodo _ IH]; [done|].
    rewrite !fmap_cons, IH. by rewrite toggle_one_twice.
Qed.

Lemma handleSubmit_blank reply w :
  trim (input (ui w)) = EmptyString → handleSubmit reply w = w.
Proof. unfold handleSubmit. by intros ->. Qed.

Lemma handleSubmit_text reply w :
  trim (input (ui w)) ≠ EmptyString →
  handleSubmit reply w =
    setInput EmptyString
      (addTodo (input (ui w)) (priority (ui w)) reply w).2.
Proof.
  unfold handleSubmit, nonempty. intros Hne.
  by destruct (String.eqb_spec (trim (input (ui w))) EmptyString).
Qed.

(** C7, amended.  When the input trims to the empty string (it is white
    space and nothing else, ASCII or not), [handleSubmit] changes nothing:
    list, cache and trace stay as they are.  Otherwise it
    calls [addTodo] with the input as it was typed, not with its trimmed
    form, and then clears the input; the title that goes out is the untrimmed
    text. *)
Theorem handleSubmit_passes_input reply w :
  (trim (input (ui w)) = EmptyString → handleSubmit reply w = w)
  ∧ (trim (input (ui w)) ≠ EmptyString →
     handleSubmit reply w =
       setInput EmptyString
         (addTodo (input (ui w)) (priority (ui w)) reply w).2
     ∧ requests (handleSubmit reply w) =
         requests w ++ [post_request (input (ui w))]).
Proof.
  split; [apply handleSubmit_blank|]. intros Hne.
  rewrite handleSubmit_text by done. split; [done|].
  apply addTodo_requests.
Qed.

(** ** The presenter *)

Lemma rank_prioritized todo :
  prioritized todo → ∃ p, rank todo = Some (level p).
Proof. intros [p Hp]. exists p. unfold rank. rewrite Hp. by destruct p. Qed.

Lemma place_Permutation {A} (cmp : A → A → option Z) a l :
  place cmp a l ≡ₚ a :: l.
Proof.
  induction l as [|b l IH]; simpl; [done|].
  destruct (positive_result (cmp a b)); [|done].
  rewrite IH. apply Permutation_swap.
Qed.

Lemma sort_Permutation {A} (cmp : A → A → option Z) l : sort cmp l ≡ₚ l.
Proof.
  induction l as [|a l IH]; simpl; [done|].
  by rewrite place_Permutation, IH.
Qed.

Lemma positive_by_priority a b :
  positive_result (by_priority a b) = true →
  ∃ ra rb, rank a = Some ra ∧ rank b = Some rb ∧ (ra < rb)%Z.
Proof.
  unfold by_priority, positive_result.
  destruct (rank b) as [rb|], (rank a) as [ra|]; try done.
  intros ?%Z.ltb_lt. exists ra, rb. split_and!; [done..|lia].
Qed.

Lemma not_positive_by_priority a b :
  prioritized a → prioritized b →
  positive_result (by_priority a b) = false → outranks a b.
Proof.
  intros [pa Ha]%rank_prioritized [pb Hb]%rank_prioritized.
  unfold by_priority, positive_result. rewrite Ha, Hb.
  intros ?%Z.ltb_ge. exists (level pa), (level pb). split_and!; [done..|lia].
Qed.

Lemma outranks_trans a b c : outranks a b → outranks b c → outranks a c.
Proof.
  intros (ra & rb & Ha & Hb & ?) (rb' & rc & Hb' & Hc & ?).
  exists ra, rc. split_and!; [done..|]. simplify_eq. lia.
Qed.

Lemma filter_place r a l :
  List.filter (has_rank r) (place by_priority a l)
    = List.filter (has_rank r) (a :: l).
Proof.
  induction l as [|b l IH]; [done|]. simpl place.
  destruct (positive_result (by_priority a b)) eqn:Hcmp; [|done].
  apply positive_by_priority in Hcmp as (ra & rb & Ha & Hb & Hlt).
  simpl in *. rewrite IH. unfold has_rank. rewrite Ha, Hb.
  repeat case_bool_decide; simplify_eq; (done || lia).
Qed.

Lemma filter_sort r l :
  List.filter (has_rank r) (sort by_priority l) = List.filter (has_rank r) l.
Proof.
  induction l as [|a l IH]; [done|]. simpl sort.
  rewrite filter_place. simpl. by rewrite IH.
Qed.

Lemma place_sorted a l :
  prioritized a → Forall prioritized l →
  StronglySorted outranks l → StronglySorted outranks (place by_priority a l).
Proof.
  intros Ha Hl Hsorted. induction Hsorted as [|b l Hsorted IH Hb]; simpl.
  { by repeat constructor. }
  apply Forall_cons in Hl as [Hpb Hl].
  destruct (positive_result (by_priority a b)) eqn:Hcmp.
  - constructor; [by apply IH|].
    rewrite place_Permutation. constructor; [|done].
    apply positive_by_priority in Hcmp as (ra & rb & ? & ? & ?).
    exists rb, ra. split_and!; [done..|lia].
  - apply not_positive_by_priority in Hcmp; [|done..].
    constructor; [by constructor|]. constructor; [done|].
    eapply Forall_impl; [exact Hb|]. intros c. by apply outranks_trans.
Qed.

Lemma filter_no_rank r l :
  Forall (λ todo, rank todo ≠ r) l → List.filter (has_rank r) l = [].
Proof.
  induction 1 as [|todo l Htodo _ IH]; [done|]. simpl.
  unfold has_rank at 1. by rewrite bool_decide_false.
Qed.

Lemma outranked_no_rank a l ra r :
  rank a = Some ra → (ra < r)%Z →
  Forall (outranks a) l → Forall (λ todo, rank todo ≠ Some r) l.
Proof.
  intros Ha Hlt Hl. eapply Forall_impl; [exact Hl|].
  intros b (ra' & rb & Ha' & Hb & Hle) Hr. simplify_eq. lia.
Qed.

Lemma filter_rank_cons r a l :
  List.filter (has_rank r) (a :: l) =
    if bool_decide (rank a = r) then a :: List.filter (has_rank r) l
    else List.filter (has_rank r) l.
Proof. done. Qed.

(** A list in descending rank is its high tasks, then its medium ones, then
    its low ones. *)
Lemma sorted_by_ranks l :
  Forall prioritized l → StronglySorted outranks l →
  l = List.filter (has_rank (Some 3%Z)) l
      ++ List.filter (has_rank (Some 2%Z)) l
      ++ List.filter (has_rank (Some 1%Z)) l.
Proof.
  intros Hall Hsorted. induction Hsorted as [|a l Hsorted IH Ha]; [done|].
  apply Forall_cons in Hall as [[p Hp]%rank_prioritized Hall].
  specialize (IH Hall). rewrite !filter_rank_cons, Hp.
  destruct p; repeat case_bool_decide; simplify_eq/=.
  - rewrite (filter_no_rank (Some 3%Z)), (filter_no_rank (Some 2%Z)) in IH |- *
      by (eapply outranked_no_rank; [exact Hp|done..]).
    simpl in *. by f_equal.
  - rewrite (filter_no_rank (Some 3%Z)) in IH |- *
      by (eapply outranked_no_rank; [exact Hp|done..]).
    simpl in *. by f_equal.
  - by f_equal.
Qed.

Lemma sort_sorted l :
  Forall prioritized l → StronglySorted outranks (sort by_priority l).
Proof.
  induction 1 as [|a l Ha Hl IH]; simpl; [constructor|].
  apply place_sorted; [done| |done]. by rewrite sort_Permutation.
Qed.

(** C5.  For a filtered list of tasks with priorities among [high], [medium]
    and [low], the sorted view is a rearrangement of it in descending rank
    (high 3, medium 2, low 1), and the tasks of one rank are in the order
    they had in the filtered list: it is the high tasks of the filtered list
    in their order, then the medium ones, then the low ones, which is what
    any stable sort gives.  In particular [A(high); B(medium); C(high)]
    becomes [A; C; B]. *)
Theorem sortedTodos_stable_descending s :
  Forall prioritized (filteredTodos s) →
  sortedTodos s ≡ₚ filteredTodos s
  ∧ StronglySorted outranks (sortedTodos s)
  ∧ (∀ r, List.filter (has_rank r) (sortedTodos s)
          = List.filter (has_rank r) (filteredTodos s))
  ∧ sortedTodos s =
      List.filter (has_rank (Some 3%Z)) (filteredTodos s)
      ++ List.filter (has_rank (Some 2%Z)) (filteredTodos s)
      ++ List.filter (has_rank (Some 1%Z)) (filteredTodos s)
  ∧ (∀ A B C : Obj,
       A !! "priority" = Some (JStr "high") →
       B !! "priority" = Some (JStr "medium") →
       C !! "priority" = Some (JStr "high") →
       filteredTodos s = [A; B; C] → sortedTodos s = [A; C; B]).
Proof.
  intros Hall. unfold sortedTodos. split_and!.
  - apply sort_Permutation.
  - by apply sort_sorted.
  - intros r. apply filter_sort.
  - rewrite <-!(filter_sort _ (filteredTodos s)).
    apply sorted_by_ranks; [|by apply sort_sorted].
    by rewrite sort_Permutation.
  - intros A B C HA HB HC ->. cbn [sort place].
    assert (by_priority B C = Some 1%Z) as ->
      by (unfold by_priority, rank; by rewrite HB, HC).
    cbn [positive_result Z.ltb Z.compare place].
    assert (by_priority A C = Some 0%Z) as ->
      by (unfold by_priority, rank; by rewrite HA, HC).
    done.
Qed.

(** ** The loader *)

Lemma failed_call_read_fails reply : failed_call reply → read_fails reply.
Proof.
  intros Hfail%failed_call_throws. unfold read_fails, remote_todos.
  by rewrite Hfail.
Qed.

Lemma malformed_body_read_fails status text :
  JSON_parse text = None → read_fails (Response status text).
Proof.
  intros Hparse. unfold read_fails, remote_todos. simpl.
  rewrite Hparse. by destruct (ok status).
Qed.

Lemma fetchTodos_success reply w l :
  remote_todos reply = Some l →
  fetchTodos reply w =
    {| ui := {| todos := l; input := input (ui w); priority := priority (ui w);
                loading := false; error := None; filter := filter (ui w) |};
       localStorage := localStorage w;
       requests := requests w ++ [get_request] |}.
Proof. unfold fetchTodos. by intros ->. Qed.

Lemma fetchTodos_failure reply w :
  remote_todos reply = None →
  fetchTodos reply w =
    {| ui := {| todos := default (todos (ui w))
                           (cached_todos (getItem "todos" w));
                input := input (ui w); priority := priority (ui w);
                loading := false; error := Some load_warning;
                filter := filter (ui w) |};
       localStorage := localStorage w;
       requests := requests w ++ [get_request] |}.
Proof.
  unfold fetchTodos. intros ->. unfold getItem. simpl.
  by destruct (cached_todos (localStorage w !! "todos")).
Qed.

Lemma with_priority_object m : with_priority (JObj m) = Some (default_priority m).
Proof.
  unfold with_priority, default_priority. simpl.
  destruct (m !! "priority") as [v|] eqn:Hp; simpl; [|done].
  destruct (truthy v); [|done]. by rewrite insert_id.
Qed.

Lemma default_priority_other (m : Obj) k :
  k ≠ "priority" → default_priority m !! k = m !! k.
Proof.
  intros Hk. unfold default_priority.
  destruct (truthy_opt (m !! "priority")); [done|].
  by rewrite lookup_insert_ne.
Qed.

Lemma default_priority_priority (m : Obj) :
  default_priority m !! "priority"
    = Some (js_or (m !! "priority") (JStr "medium")).
Proof.
  unfold default_priority, js_or.
  destruct (m !! "priority") as [v|] eqn:Hp; simpl.
  - destruct (truthy v); [done|]. by rewrite lookup_insert_eq.
  - by rewrite lookup_insert_eq.
Qed.

Lemma with_priority_not_null item :
  item ≠ JNull → with_priority item = Some (with_default_priority item).
Proof.
  destruct item; try done. intros _. apply with_priority_object.
Qed.

Lemma cached_entry_normalized index item :
  item ≠ JNull →
  cached_entry index item = Some (normalized_entry index item).
Proof.
  destruct item; try done. intros _. apply with_priority_object.
Qed.

Lemma mapM_imap_Some {A B} (f : nat → A → option B) (g : nat → A → B) l :
  (∀ i x, l !! i = Some x → f i x = Some (g i x)) →
  mapM id (imap f l) = Some (imap g l).
Proof.
  revert f g. induction l as [|x l IH]; intros f g Hfg; [done|].
  rewrite !imap_cons. simpl. rewrite (Hfg 0 x) by done. simpl.
  rewrite (IH _ (g ∘ S)); [done|]. intros i y Hy. by apply (Hfg (S i)).
Qed.

Lemma stored_nonempty stored v :
  JSON_parse stored = Some v → nonempty stored = true.
Proof.
  intros Hparse. unfold nonempty.
  destruct (String.eqb_spec stored EmptyString) as [->|]; [|done].
  by rewrite JSON_parse_empty in Hparse.
Qed.

(** C1, amended.  When the remote read fails and the cache holds a text
    that parses to an array without a [null] in it, the list in memory is
    that array normalised entry by entry: the string at position [i] becomes
    [{id: i+1, title, completed: false, priority: "medium"}]; an object keeps
    all its properties, [id] included, except that its priority becomes
    ["medium"] when it is missing or falsy. *)
Theorem fallback_normalizes reply w stored parsedTodos :
  read_fails reply →
  getItem "todos" w = Some stored →
  JSON_parse stored = Some (JArr parsedTodos) →
  Forall (λ item, item ≠ JNull) parsedTodos →
  let result := todos (ui (fetchTodos reply w)) in
  result = imap normalized_entry parsedTodos
  ∧ (∀ i s, parsedTodos !! i = Some (JStr s) →
       result !! i = Some (synthesized i s))
  ∧ (∀ i m, parsedTodos !! i = Some (JObj m) →
       ∃ o : Obj, result !! i = Some o
         ∧ o !! "id" = m !! "id"
         ∧ (∀ k, k ≠ "priority" → o !! k = m !! k)
         ∧ o !! "priority" = Some (js_or (m !! "priority") (JStr "medium"))).
Proof.
  intros Hfail Hstored Hparse Hitems.
  assert (todos (ui (fetchTodos reply w)) = imap normalized_entry parsedTodos)
    as Hresult.
  { rewrite fetchTodos_failure by done. simpl.
    rewrite Hstored. unfold cached_todos.
    rewrite (stored_nonempty _ _ Hparse), Hparse.
    rewrite (mapM_imap_Some _ normalized_entry); [done|].
    intros i x Hx. apply cached_entry_normalized.
    exact (Forall_lookup_1 _ _ _ _ Hitems Hx). }
  cbv zeta. rewrite Hresult. split_and!; [done|..].
  - intros i s Hi. by rewrite list_lookup_imap, Hi.
  - intros i m Hi. exists (default_priority m).
    rewrite list_lookup_imap, Hi. split_and!; [done|..].
    + by apply default_priority_other.
    + intros k. apply default_priority_other.
    + apply default_priority_priority.
Qed.

Lemma ok_2xx status : (200 ≤ status ≤ 299)%Z → ok status = true.
Proof. unfold ok. intros [?%Z.leb_le ?%Z.leb_le]. by apply andb_true_iff. Qed.

Lemma mapM_with_priority items :
  Forall (λ item, item ≠ JNull) items →
  mapM with_priority items = Some (with_default_priority <$> items).
Proof.
  induction 1 as [|item items Hitem _ IH]; [done|].
  rewrite fmap_cons. simpl. by rewrite with_priority_not_null, IH.
Qed.

(** C4, amended.  After a read answered with a 2xx status and a body whose
    [data] is an array without a [null] in it, the list in memory is that
    array with the priority of each element set to ["medium"] where it is
    missing or falsy and nothing else changed, no warning is shown and the
    store is left as it was. *)
Theorem fetchTodos_success_defaults status text data items w :
  (200 ≤ status ≤ 299)%Z →
  JSON_parse text = Some data →
  get data "data" = Value (JArr items) →
  Forall (λ item, item ≠ JNull) items →
  let w' := fetchTodos (Response status text) w in
  todos (ui w') = with_default_priority <$> items
  ∧ (∀ i m, items !! i = Some (JObj m) →
       ∃ o : Obj, todos (ui w') !! i = Some o
         ∧ (∀ k, k ≠ "priority" → o !! k = m !! k)
         ∧ o !! "priority" = Some (js_or (m !! "priority") (JStr "medium")))
  ∧ error (ui w') = None
  ∧ localStorage w' = localStorage w.
Proof.
  intros Hok%ok_2xx Hparse Hdata Hitems.
  assert (remote_todos (Response status text)
          = Some (with_default_priority <$> items)) as Hremote.
  { unfold remote_todos. simpl. rewrite Hok, Hparse. simpl.
    rewrite Hdata. simpl. by apply mapM_with_priority. }
  cbv zeta. rewrite (fetchTodos_success _ _ _ Hremote). simpl.
  split_and!; try done.
  intros i m Hi. exists (default_priority m).
  rewrite list_lookup_fmap, Hi. split_and!; [done|..].
  - intros k. apply default_priority_other.
  - apply default_priority_priority.
Qed.

Lemma no_data_field data :
  no_data data →
  ∃ field, access_opt (get data "data") = Some field
           ∧ js_or field (JArr []) = JArr [].
Proof.
  unfold no_data. destruct (get data "data") as [| |d]; [done|..].
  - by exists None.
  - intros Hd. exists (Some d). simpl. by rewrite Hd.
Qed.

(** C10, amended.  When a 2xx reply carries a body that parses to anything
    but [null] and whose [data] is missing or falsy, the loader of either
    component takes the success path: the list becomes empty, the warning is
    cleared, the store is not written, and the outcome does not depend on
    what the store holds. *)
Theorem fetchTodos_without_data status text data w bw :
  (200 ≤ status ≤ 299)%Z →
  JSON_parse text = Some data →
  no_data data →
  let reply := Response status text in
  (todos (ui (fetchTodos reply w)) = []
   ∧ error (ui (fetchTodos reply w)) = None
   ∧ localStorage (fetchTodos reply w) = localStorage w
   ∧ ∀ storage,
       ui (fetchTodos reply
             {| ui := ui w; localStorage := storage; requests := requests w |})
         = ui (fetchTodos reply w))
  ∧ (Basic.todos (Basic.ui (Basic.fetchTodos reply bw)) = JArr []
     ∧ Basic.error (Basic.ui (Basic.fetchTodos reply bw)) = None
     ∧ Basic.localStorage (Basic.fetchTodos reply bw) = Basic.localStorage bw
     ∧ ∀ storage,
         Basic.ui (Basic.fetchTodos reply
                     {| Basic.ui := Basic.ui bw;
                        Basic.localStorage := storage;
                        Basic.requests := Basic.requests bw |})
           = Basic.ui (Basic.fetchTodos reply bw)).
Proof.
  intros Hok%ok_2xx Hparse (field & Hfield & Hor)%no_data_field. cbv zeta.
  assert (remote_todos (Response status text) = Some []) as Hremote.
  { unfold remote_todos. simpl. rewrite Hok, Hparse. simpl.
    rewrite Hfield. simpl. by rewrite Hor. }
  assert (Basic.remote_todos (Response status text) = Some (JArr []))
    as Hbasic.
  { unfold Basic.remote_todos. simpl. rewrite Hok, Hparse. simpl.
    rewrite Hfield. simpl. by rewrite Hor. }
  split.
  - rewrite (fetchTodos_success _ _ _ Hremote). split_and!; try done.
    intros storage. by rewrite (fetchTodos_success _ _ _ Hremote).
  - unfold Basic.fetchTodos. rewrite Hbasic. done.
Qed.

(** ** What can happen before the load ends *)

Lemma mirrored_nonempty_cache w :
  mirrored w → ∃ s, getItem "todos" w = Some s ∧ is_Some (JSON_parse s).
Proof. intros (s & Hs & Hparse). eauto. Qed.

Lemma lockstep_act a w : lockstep w → lockstep (act a w).
Proof.
  intros Hw. destruct a as [reply|id|id|text|p|f]; simpl; try done.
  - unfold handleSubmit.
    destruct (negb (nonempty (trim (input (ui w))))); [done|].
    right.
    destruct (addTodo_writes (input (ui w)) (priority (ui w)) reply w)
      as (newTodo & Hl & Hc).
    eexists. split; [exact Hc|]. simpl. rewrite Hl.
    apply stringify_todos_parse.
  - right. eexists. split; [apply lookup_insert_eq|].
    apply stringify_todos_parse.
  - right. eexists. split; [apply lookup_insert_eq|].
    apply stringify_todos_parse.
Qed.

Lemma lockstep_run actions w : lockstep w → lockstep (run actions w).
Proof.
  revert w. induction actions as [|a actions IH]; intros w Hw; [done|].
  simpl. by apply IH, lockstep_act.
Qed.

Lemma lockstep_initial storage : lockstep (initial_world storage).
Proof. by left. Qed.

(** The plain component rebuilds every cached entry, objects included, from
    its position. *)
Lemma Basic_fallback_rebuilds stored parsedTodos :
  JSON_parse stored = Some (JArr parsedTodos) →
  Basic.cached_todos (Some stored)
    = Some (JArr (imap Basic.cached_entry parsedTodos)).
Proof.
  intros Hparse. unfold Basic.cached_todos.
  by rewrite (stored_nonempty _ _ Hparse), Hparse.
Qed.

(** C8.  Whenever the remote read fails, be it right at mount or after
    any actions of the user while it was pending, and the store has nothing
    under ["todos"] or a text that does not parse, the list in memory is
    empty and the warning is set to a text that is not empty. *)
Theorem fetchTodos_without_cache storage actions reply :
  let w := run actions (initial_world storage) in
  read_fails reply →
  (getItem "todos" w = None
   ∨ ∃ s, getItem "todos" w = Some s ∧ JSON_parse s = None) →
  todos (ui (fetchTodos reply w)) = []
  ∧ error (ui (fetchTodos reply w)) = Some load_warning
  ∧ load_warning ≠ EmptyString.
Proof.
  intros w Hfail Hcache.
  pose proof (lockstep_run actions _ (lockstep_initial storage)) as Hlock.
  fold w in Hlock. rewrite fetchTodos_failure by done. simpl.
  split_and!; [|done..].
  assert (todos (ui w) = []) as Hempty.
  { destruct Hlock as [?|(s & Hs & Hparse)]; [done|].
    destruct Hcache as [Hnone|(s' & Hs' & Hnone)]; simplify_eq. }
  destruct Hcache as [->|(s & -> & Hparse)]; simpl; [done|].
  unfold cached_todos. rewrite Hparse. by destruct (nonempty s).
Qed.

End ComponentFacts.


(** * More about the component *)

Section MoreComponentFacts.
Context `{!Platform}.

(** ** Deleting and toggling *)

Lemma filter_sublist {A} (P : A → bool) (l : list A) :
  List.filter P l `sublist_of` l.
Proof.
  induction l as [|x l IH]; simpl; [done|].
  destruct (P x); by constructor.
Qed.

Lemma filter_all_true {A} (P : A → bool) (l : list A) :
  Forall (λ x, P x = true) l → List.filter P l = l.
Proof.
  induction 1 as [|x l Hx _ IH]; simpl; [done|]. by rewrite Hx, IH.
Qed.

Lemma filter_filter_same {A} (P : A → bool) (l : list A) :
  List.filter P (List.filter P l) = List.filter P l.
Proof.
  apply filter_all_true, Forall_forall. intros x Hx.
  apply list_elem_of_In, filter_In in Hx. tauto.
Qed.

Lemma todos_delete id w :
  todos (ui (deleteTodo id w))
    = List.filter (λ todo, negb (id_is id todo)) (todos (ui w)).
Proof. done. Qed.

(** X1.  [deleteTodo] takes out every task with the id and nothing else: a
    task is listed afterwards exactly when it was listed before under another
    id, and the tasks that stay keep their order. *)
Theorem deleteTodo_removes_id id w :
  let before := todos (ui w) in
  let after := todos (ui (deleteTodo id w)) in
  (∀ todo, todo ∈ after ↔ todo ∈ before ∧ id_is id todo = false)
  ∧ after `sublist_of` before
  ∧ length after + length (List.filter (id_is id) before) = length before.
Proof.
  cbv zeta. rewrite todos_delete. split_and!.
  - intros todo. rewrite !list_elem_of_In, filter_In, negb_true_iff. done.
  - apply filter_sublist.
  - induction (todos (ui w)) as [|todo l IH]; simpl; [done|].
    destruct (id_is id todo); simpl; lia.
Qed.

Lemma world_eq (w1 w2 : World) :
  ui w1 = ui w2 → localStorage w1 = localStorage w2 →
  requests w1 = requests w2 → w1 = w2.
Proof. destruct w1, w2. simpl. by intros -> -> ->. Qed.

Lemma state_eq (s1 s2 : State) :
  todos s1 = todos s2 → input s1 = input s2 → priority s1 = priority s2 →
  loading s1 = loading s2 → error s1 = error s2 → filter s1 = filter s2 →
  s1 = s2.
Proof. destruct s1, s2. simpl. by intros -> -> -> -> -> ->. Qed.

(** Two worlds written by [setTodos] and [setItem "todos"] over worlds that
    differ in list and cache only are equal when their lists are. *)
Lemma rewritten_eq l1 l2 w1 w2 :
  l1 = l2 →
  input (ui w1) = input (ui w2) → priority (ui w1) = priority (ui w2) →
  loading (ui w1) = loading (ui w2) → error (ui w1) = error (ui w2) →
  filter (ui w1) = filter (ui w2) →
  (∀ k, k ≠ "todos" → localStorage w1 !! k = localStorage w2 !! k) →
  requests w1 = requests w2 →
  setItem "todos" (stringify_todos l1) (setTodos l1 w1)
    = setItem "todos" (stringify_todos l2) (setTodos l2 w2).
Proof.
  intros -> Hi Hp Hl He Hf Hs Hr. apply world_eq; simpl; [|..|done].
  - by apply state_eq.
  - apply map_eq. intros k. destruct (decide (k = "todos")) as [->|Hk].
    + by rewrite !lookup_insert_eq.
    + rewrite !lookup_insert_ne by done. by apply Hs.
Qed.

Lemma toggle_rewrites id w :
  toggleTodoCompletion id w =
    setItem "todos" (stringify_todos (toggle_one id <$> todos (ui w)))
      (setTodos (toggle_one id <$> todos (ui w)) w).
Proof. done. Qed.

Lemma delete_rewrites id w :
  deleteTodo id w =
    setItem "todos"
      (stringify_todos
         (List.filter (λ todo, negb (id_is id todo)) (todos (ui w))))
      (setTodos (List.filter (λ todo, negb (id_is id todo)) (todos (ui w))) w).
Proof. done. Qed.

(** X2.  Deleting the same id again changes nothing more, and deleting an id
    that no task carries leaves the list as it is while the cache is still
    rewritten with it. *)
Theorem deleteTodo_again id w :
  deleteTodo id (deleteTodo id w) = deleteTodo id w
  ∧ (Forall (λ todo, id_is id todo = false) (todos (ui w)) →
     todos (ui (deleteTodo id w)) = todos (ui w)
     ∧ getItem "todos" (deleteTodo id w)
         = Some (stringify_todos (todos (ui w)))).
Proof.
  split.
  - rewrite (delete_rewrites id (deleteTodo id w)).
    apply (rewritten_eq _ _ (deleteTodo id w) w); try done.
    + rewrite todos_delete. apply filter_filter_same.
    + intros k Hk. simpl. by rewrite lookup_insert_ne.
  - intros Hnone.
    assert (todos (ui (deleteTodo id w)) = todos (ui w)) as Heq.
    { rewrite todos_delete. apply filter_all_true.
      eapply Forall_impl; [exact Hnone|]. by intros todo ->. }
    split; [done|]. unfold deleteTodo, getItem. simpl.
    rewrite lookup_insert_eq. rewrite todos_delete in Heq. by rewrite Heq.
Qed.

Lemma toggled_other (todo : Obj) k :
  k ≠ "completed" → toggled todo !! k = todo !! k.
Proof. intros Hk. unfold toggled. by rewrite lookup_insert_ne. Qed.

Lemma toggle_one_other id (todo : Obj) k :
  k ≠ "completed" → toggle_one id todo !! k = todo !! k.
Proof.
  intros Hk. unfold toggle_one. destruct (id_is id todo); [|done].
  by apply toggled_other.
Qed.

Lemma id_is_toggle_one id id' todo :
  id_is id (toggle_one id' todo) = id_is id todo.
Proof.
  unfold toggle_one. destruct (id_is id' todo); [|done]. apply id_is_toggled.
Qed.

(** X3.  [toggleTodoCompletion] keeps every task at its place.  A task with
    another id is left exactly as it is; a task with the id gets the negation
    of its flag and keeps every other property.  With an id that no task
    carries the list is unchanged, and the cache is rewritten all the same. *)
Theorem toggle_touches_only_id id w :
  let before := todos (ui w) in
  let after := todos (ui (toggleTodoCompletion id w)) in
  length after = length before
  ∧ (∀ i todo, before !! i = Some todo →
       ∃ todo' : Obj, after !! i = Some todo'
         ∧ (∀ k, k ≠ "completed" → todo' !! k = todo !! k)
         ∧ (id_is id todo = false → todo' = todo)
         ∧ (id_is id todo = true →
            todo' !! "completed"
              = Some (JBool (negb (truthy_opt (todo !! "completed"))))))
  ∧ (Forall (λ todo, id_is id todo = false) before →
     after = before
     ∧ getItem "todos" (toggleTodoCompletion id w)
         = Some (stringify_todos before)).
Proof.
  cbv zeta. rewrite todos_toggle. split_and!.
  - apply length_fmap.
  - intros i todo Hi. exists (toggle_one id todo).
    rewrite list_lookup_fmap, Hi. split_and!; [done|..].
    + intros k. apply toggle_one_other.
    + unfold toggle_one. by intros ->.
    + unfold toggle_one, toggled. intros ->. apply lookup_insert_eq.
  - intros Hnone.
    assert (toggle_one id <$> todos (ui w) = todos (ui w)) as Heq.
    { induction Hnone as [|todo l Htodo _ IH]; [done|].
      rewrite fmap_cons, IH. unfold toggle_one. by rewrite Htodo. }
    split; [done|]. unfold toggleTodoCompletion, getItem. simpl.
    rewrite lookup_insert_eq. do 2 f_equal. exact Heq.
Qed.

Lemma toggle_one_commute i j todo :
  toggle_one i (toggle_one j todo) = toggle_one j (toggle_one i todo).
Proof.
  unfold toggle_one at 1 3. rewrite !id_is_toggle_one.
  unfold toggle_one. by destruct (id_is i todo), (id_is j todo).
Qed.

Lemma filter_toggle_one i j (l : list Obj) :
  List.filter (λ todo, negb (id_is i todo)) (toggle_one j <$> l)
    = toggle_one j <$> List.filter (λ todo, negb (id_is i todo)) l.
Proof.
  induction l as [|todo l IH]; [done|]. rewrite fmap_cons. simpl.
  rewrite id_is_toggle_one, IH. by destruct (id_is i todo).
Qed.

(** X4.  The order of two local changes does not matter: two toggles
    commute, and a toggle commutes with a delete, for any two ids.  The whole
    world, cache included, is the same either way. *)
Theorem local_changes_commute i j w :
  toggleTodoCompletion i (toggleTodoCompletion j w)
    = toggleTodoCompletion j (toggleTodoCompletion i w)
  ∧ deleteTodo i (toggleTodoCompletion j w)
      = toggleTodoCompletion j (deleteTodo i w).
Proof.
  split.
  - rewrite (toggle_rewrites i (toggleTodoCompletion j w)).
    apply (rewritten_eq _ _ (toggleTodoCompletion j w)
             (toggleTodoCompletion i w)); try done.
    + rewrite !todos_toggle, <-!list_fmap_compose. apply list_fmap_ext.
      intros n todo _. apply toggle_one_commute.
    + intros k Hk. simpl. by rewrite !lookup_insert_ne.
  - rewrite (delete_rewrites i (toggleTodoCompletion j w)).
    apply (rewritten_eq _ _ (toggleTodoCompletion j w) (deleteTodo i w));
      try done.
    + rewrite todos_toggle, todos_delete. apply filter_toggle_one.
    + intros k Hk. simpl. by rewrite !lookup_insert_ne.
Qed.

(** X5.  Toggling and deleting stay local: no request is issued, the
    warning, the input, the chosen priority and filter are left alone, and
    no key of the store other than ["todos"] is written.  [addTodo] too
    writes no other key. *)
Theorem local_changes_stay_local id w :
  let unchanged (w' : World) :=
    requests w' = requests w
    ∧ error (ui w') = error (ui w)
    ∧ input (ui w') = input (ui w)
    ∧ priority (ui w') = priority (ui w)
    ∧ filter (ui w') = filter (ui w)
    ∧ loading (ui w') = loading (ui w)
    ∧ ∀ k, k ≠ "todos" → localStorage w' !! k = localStorage w !! k in
  unchanged (toggleTodoCompletion id w)
  ∧ unchanged (deleteTodo id w)
  ∧ ∀ task p reply k,
      k ≠ "todos" →
      localStorage (addTodo task p reply w).2 !! k = localStorage w !! k.
Proof.
  cbv zeta. split_and!; try done.
  - intros k Hk. simpl. by rewrite lookup_insert_ne.
  - intros k Hk. simpl. by rewrite lookup_insert_ne.
  - intros task p reply k Hk. unfold addTodo.
    destruct (created_todo reply p); simpl; by rewrite lookup_insert_ne.
Qed.

(** ** Adding *)

Lemma json_of_reply_Some reply data :
  json_of_reply reply = Some data ↔
  ∃ status text,
    reply = Response status text
    ∧ (200 ≤ status ≤ 299)%Z
    ∧ JSON_parse text = Some data.
Proof.
  split.
  - destruct reply as [|status text]; [done|]. simpl.
    destruct (ok status) eqn:Hok; [|done]. intros Hparse.
    unfold ok in Hok. apply andb_true_iff in Hok as [?%Z.leb_le ?%Z.leb_le].
    exists status, text. by split_and!.
  - intros (status & text & -> & Hok%ok_2xx & Hparse). simpl. by rewrite Hok.
Qed.

Lemma get_throws v k : get v k = Throws ↔ v = JNull.
Proof.
  split; [|by intros ->]. destruct v; simpl; try done.
  by destruct (_ !! _).
Qed.

Lemma created_todo_Some reply p newTodo :
  created_todo reply p = Some newTodo ↔
  ∃ data, answered reply data
    ∧ newTodo = <["priority" := JStr (Priority_str p)]>
                  (spread (match get data "data" with
                           | Value v => Some v
                           | _ => None
                           end)).
Proof.
  unfold created_todo, answered. split.
  - destruct (json_of_reply reply) as [data|] eqn:Hdata; [|done]. simpl.
    apply json_of_reply_Some in Hdata as (status & text & -> & ? & ?).
    assert (get data "data" ≠ Throws → data ≠ JNull) as Hnull.
    { intros Hget ->. by apply Hget. }
    destruct (get data "data") as [| |v] eqn:Hget; simpl; [done|..];
      intros [= <-]; exists data; rewrite Hget;
      (split; [exists status, text; split_and!; try done; try lia;
               by apply Hnull|done]).
  - intros (data & (status & text & -> & Hok & Hparse & Hnull) & ->).
    rewrite (proj2 (json_of_reply_Some _ _)) by eauto. simpl.
    destruct (get data "data") as [| |v] eqn:Hget; [|done..].
    by apply get_throws in Hget.
Qed.

(** X6.  [addTodo] reports success exactly when the reply has a 2xx status
    and a body that parses to something other than [null]; every other reply
    (rejected call, other status, malformed body, the body [null]) ends in
    the local fallback. *)
Theorem addTodo_succeeds_iff task p reply w :
  (addTodo task p reply w).1 = true ↔ ∃ data, answered reply data.
Proof.
  unfold addTodo. destruct (created_todo reply p) as [newTodo|] eqn:Hnew; simpl.
  - apply created_todo_Some in Hnew as (data & Hdata & _). split; eauto.
  - split; [done|]. intros (data & Hdata).
    assert (is_Some (created_todo reply p)) as [? Hsome]; [|congruence].
    eexists. apply created_todo_Some. eauto.
Qed.

(** X7.  When the create call is answered, the record appended is the
    [data] of the reply with the chosen priority written over whatever
    priority the server sent: every other property, the title included, is
    the server's.  A reply without [data] gives a record that has a priority
    and nothing else.  A warning shown earlier stays. *)
Theorem addTodo_answered task p reply data w :
  answered reply data →
  let result := addTodo task p reply w in
  ∃ newTodo : Obj,
    todos (ui result.2) = todos (ui w) ++ [newTodo]
    ∧ newTodo !! "priority" = Some (JStr (Priority_str p))
    ∧ (∀ record, get data "data" = Value (JObj record) →
         ∀ k, k ≠ "priority" → newTodo !! k = record !! k)
    ∧ (get data "data" = Undefined →
         newTodo = {[ "priority" := JStr (Priority_str p) ]})
    ∧ error (ui result.2) = error (ui w).
Proof.
  intros Hdata. cbv zeta.
  assert (∃ status text, reply = Response status text
            ∧ JSON_parse text = Some data) as (status & text & -> & Hparse).
  { destruct Hdata as (status & text & -> & _ & ? & _). eauto. }
  destruct (created_todo (Response status text) p) as [newTodo|] eqn:Hnew.
  - apply created_todo_Some in Hnew as (data' & Hdata' & ->).
    assert (data' = data) as ->.
    { destruct Hdata' as (? & ? & [= <- <-] & _ & ? & _). congruence. }
    eexists. unfold addTodo.
    rewrite (proj2 (created_todo_Some _ p _)) by eauto. simpl.
    split_and!; [done| | | |done].
    + apply lookup_insert_eq.
    + intros record -> k Hk. by rewrite lookup_insert_ne.
    + by intros ->.
  - assert (is_Some (created_todo (Response status text) p)) as [? ?];
      [|congruence].
    eexists. apply created_todo_Some. eauto.
Qed.

(** X8.  Whatever the reply, [addTodo] keeps the tasks already listed in
    place and appends exactly one, which carries the chosen priority. *)
Theorem addTodo_appends_one task p reply w :
  ∃ newTodo : Obj,
    todos (ui (addTodo task p reply w).2) = todos (ui w) ++ [newTodo]
    ∧ newTodo !! "priority" = Some (JStr (Priority_str p))
    ∧ length (todos (ui (addTodo task p reply w).2))
        = S (length (todos (ui w))).
Proof.
  unfold addTodo. destruct (created_todo reply p) as [newTodo|] eqn:Hnew;
    eexists; simpl; (split_and!; [done| |rewrite length_app; simpl; lia]).
  - apply created_todo_Some in Hnew as (data & _ & ->).
    apply lookup_insert_eq.
  - done.
Qed.

(** ** Numbering *)

Lemma ids_by_position_unique (l : list Obj) i j a b :
  ids_by_position l →
  l !! i = Some a → l !! j = Some b → a !! "id" = b !! "id" → i = j.
Proof.
  intros Hl Ha%Hl Hb%Hl Heq. rewrite Ha, Hb in Heq. simplify_eq. lia.
Qed.

Lemma addTodo_offline_todos task p reply w :
  failed_call reply →
  todos (ui (addTodo task p reply w).2) =
    todos (ui w) ++
      [ {[ "id" := JNum (Z.of_nat (length (todos (ui w))) + 1);
           "title" := JStr task;
           "completed" := JBool false;
           "priority" := JStr (Priority_str p) ]} ].
Proof.
  intros Hfail%failed_call_throws. unfold addTodo, created_todo.
  by rewrite Hfail.
Qed.

Lemma ids_by_position_act a w :
  keeps_numbering a →
  ids_by_position (todos (ui w)) → ids_by_position (todos (ui (act a w))).
Proof.
  intros Ha Hw.
  destruct a as [reply|id|id|text|p|f]; cbn [act keeps_numbering] in *;
    try done.
  - unfold handleSubmit.
    destruct (negb (nonempty (trim (input (ui w))))); [done|].
    cbn [setInput on_ui ui todos]. rewrite (addTodo_offline_todos _ _ _ _ Ha).
    intros i todo [[_ Hi]|[-> <-]]%lookup_snoc_Some.
    + by apply Hw.
    + by rewrite lookup_insert_eq.
  - rewrite todos_toggle. intros i todo' Hi.
    rewrite list_lookup_fmap in Hi.
    destruct (todos (ui w) !! i) as [todo|] eqn:Htodo; simplify_eq/=.
    rewrite toggle_one_other by done. by apply Hw.
Qed.

Lemma filter_partition {A} (P : A → bool) (l : list A) :
  List.filter (λ x, negb (P x)) l ++ List.filter P l ≡ₚ l.
Proof.
  induction l as [|x l IH]; simpl; [done|]. destruct (P x); simpl.
  - by rewrite <-Permutation_middle, IH.
  - by rewrite IH.
Qed.

Lemma filter_lengths {A} (P : A → bool) (l : list A) :
  length (List.filter P l) + length (List.filter (λ x, negb (P x)) l)
    = length l.
Proof.
  induction l as [|x l IH]; simpl; [done|]. destruct (P x); simpl; lia.
Qed.

Lemma ids_by_position_snoc (l : list Obj) x :
  ids_by_position (l ++ [x]) →
  ids_by_position l ∧ x !! "id" = Some (JNum (Z.of_nat (length l) + 1)).
Proof.
  intros Hl. split.
  - intros i todo Hi. apply Hl. rewrite lookup_app_l; [done|].
    by eapply lookup_lt_Some.
  - apply Hl. by rewrite list_lookup_middle.
Qed.

Lemma filter_snoc {A} (P : A → bool) l x :
  List.filter P (l ++ [x])
    = List.filter P l ++ (if P x then [x] else []).
Proof. by rewrite List.filter_app. Qed.

Lemma id_is_at (todo : Obj) (n k : Z) :
  todo !! "id" = Some (JNum n) → id_is k todo = bool_decide (n = k).
Proof.
  intros Hid. unfold id_is. rewrite Hid.
  case_bool_decide; [by apply Z.eqb_eq|by apply Z.eqb_neq].
Qed.

(** In a list numbered by position an id within range is carried by exactly
    one task, an id beyond it by none. *)
Lemma ids_by_position_count (l : list Obj) (k : Z) :
  ids_by_position l →
  length (List.filter (id_is k) l)
    = if bool_decide (1 ≤ k ≤ Z.of_nat (length l))%Z then 1 else 0.
Proof.
  induction l as [|x l IH] using rev_ind; intros Hl.
  { simpl. by rewrite bool_decide_false by lia. }
  apply ids_by_position_snoc in Hl as [Hl Hx].
  rewrite filter_snoc, !length_app, IH by done.
  rewrite (id_is_at _ _ _ Hx). simpl.
  repeat case_bool_decide; simpl; lia.
Qed.

Lemma run_invariant (P : World → Prop) (Q : Action → Prop) :
  (∀ a w, Q a → P w → P (act a w)) →
  ∀ actions w, Forall Q actions → P w → P (run actions w).
Proof.
  intros Hstep actions. induction actions as [|a actions IH];
    intros w Hall Hw; [done|].
  apply Forall_cons in Hall as [Ha Hall]. simpl. apply IH; [done|].
  by apply Hstep.
Qed.

(** X9.  As long as nothing is deleted and no create call is answered by
    the server, the numbering by position holds: from a list in which the
    task at position [i] has id [i + 1] (the empty list of a fresh mount is
    one), any run of typing, choosing, toggling and unanswered submits leads
    to such a list again, so no two tasks share an id. *)
Theorem numbering_kept w actions :
  ids_by_position (todos (ui w)) →
  Forall keeps_numbering actions →
  let l := todos (ui (run actions w)) in
  ids_by_position l
  ∧ ∀ i j (a b : Obj),
      l !! i = Some a → l !! j = Some b → a !! "id" = b !! "id" → i = j.
Proof.
  intros Hw Hactions.
  assert (ids_by_position (todos (ui (run actions w)))) as Hl.
  { apply (run_invariant (λ w, ids_by_position (todos (ui w))) keeps_numbering);
      [|done..]. intros a w'. apply ids_by_position_act. }
  split; [done|]. intros i j a b. by apply ids_by_position_unique.
Qed.

(** X22.  Deleting breaks the numbering.  In a list numbered by position,
    delete any task but the last and then add one while the server is out of
    reach: the new task gets the id that the last task already carries, so
    two tasks share an id. *)
Theorem delete_then_offline_add_reuses_id w k task p reply :
  ids_by_position (todos (ui w)) →
  (1 ≤ k < Z.of_nat (length (todos (ui w))))%Z →
  failed_call reply →
  let l := todos (ui (addTodo task p reply (deleteTodo k w)).2) in
  ∃ i j (a b : Obj),
    i ≠ j ∧ l !! i = Some a ∧ l !! j = Some b ∧ a !! "id" = b !! "id".
Proof.
  intros Hw Hk Hfail. cbv zeta.
  rewrite (addTodo_offline_todos _ _ _ _ Hfail), todos_delete.
  destruct (todos (ui w)) as [|x0 l0] using rev_ind; [simpl in Hk; lia|].
  clear IHl0. rename l0 into l, x0 into x.
  pose proof (ids_by_position_count _ k Hw) as Hcount.
  rewrite bool_decide_true in Hcount by lia.
  apply ids_by_position_snoc in Hw as [Hl Hx].
  rewrite length_app in Hk. simpl in Hk.
  assert (id_is k x = false) as Hkx.
  { rewrite (id_is_at _ _ _ Hx). apply bool_decide_false. lia. }
  rewrite filter_snoc, length_app in Hcount. rewrite Hkx in Hcount.
  simpl in Hcount. rewrite Nat.add_0_r in Hcount.
  pose proof (filter_lengths (id_is k) l) as Hsplit.
  rewrite filter_snoc, Hkx. simpl.
  set (kept := List.filter (λ todo, negb (id_is k todo)) l) in *.
  do 2 eexists. exists x. eexists.
  split; [|split; [|split; [|]]]; cycle 1.
  - rewrite <-app_assoc. by apply list_lookup_middle.
  - by apply list_lookup_middle.
  - rewrite Hx, lookup_insert_eq. do 2 f_equal. rewrite length_app. simpl.
    lia.
  - rewrite length_app. simpl. lia.
Qed.

(** ** Loading *)

Lemma fetchTodos_frame_requests reply w :
  requests (fetchTodos reply w) = requests w ++ [get_request].
Proof.
  destruct (remote_todos reply) as [l|] eqn:Hremote.
  - by rewrite (fetchTodos_success _ _ _ Hremote).
  - by rewrite (fetchTodos_failure _ _ Hremote).
Qed.

(** X10.  Whatever the reply, [fetchTodos] never writes to the store, issues
    exactly one GET without a body, ends with the loading flag down, leaves
    input, priority and filter alone, and ends with either no warning or the
    load warning. *)
Theorem fetchTodos_frame reply w :
  let w' := fetchTodos reply w in
  localStorage w' = localStorage w
  ∧ requests w' = requests w ++ [get_request]
  ∧ body get_request = None
  ∧ loading (ui w') = false
  ∧ input (ui w') = input (ui w)
  ∧ priority (ui w') = priority (ui w)
  ∧ filter (ui w') = filter (ui w)
  ∧ (error (ui w') = None ∨ error (ui w') = Some load_warning).
Proof.
  cbv zeta. destruct (remote_todos reply) as [l|] eqn:Hremote.
  - rewrite (fetchTodos_success _ _ _ Hremote). simpl. split_and!; auto.
  - rewrite (fetchTodos_failure _ _ Hremote). simpl. split_and!; auto.
Qed.

Lemma with_priority_null : with_priority JNull = None.
Proof. done. Qed.

Lemma mapM_with_priority_Some items l :
  mapM with_priority items = Some l → Forall (λ item, item ≠ JNull) items.
Proof.
  intros Hl. assert (is_Some (mapM with_priority items)) as Hsome by eauto.
  apply mapM_is_Some_1 in Hsome. eapply Forall_impl; [exact Hsome|].
  intros item [o Ho] ->. by rewrite with_priority_null in Ho.
Qed.

Lemma remote_todos_is_Some reply :
  is_Some (remote_todos reply) ↔
  ∃ data, answered reply data
    ∧ (no_data data
       ∨ ∃ items, get data "data" = Value (JArr items)
                  ∧ Forall (λ item, item ≠ JNull) items).
Proof.
  unfold remote_todos, answered. split.
  - destruct (json_of_reply reply) as [data|] eqn:Hdata; simpl;
      [|by intros [? ?]].
    apply json_of_reply_Some in Hdata as (status & text & -> & ? & ?).
    unfold no_data.
    assert (get data "data" ≠ Throws → data ≠ JNull) as Hnull.
    { intros Hget ->. by apply Hget. }
    destruct (get data "data") as [| |d] eqn:Hget; simpl;
      [by intros [? ?]|..]; intros [l Hl]; exists data;
      (split; [exists status, text; split_and!; try done; try lia;
               by apply Hnull|]).
    + left. by rewrite Hget.
    + destruct (truthy d) eqn:Hd; [|left; by rewrite Hget]. right.
      destruct d as [| | | |items|]; try done. exists items.
      split; [done|]. by eapply mapM_with_priority_Some.
  - intros (data & (status & text & -> & Hok & Hparse & Hnull) & Hcases).
    rewrite (proj2 (json_of_reply_Some _ _)) by eauto. simpl.
    destruct Hcases as [Hno|(items & Hget & Hitems)].
    + destruct (no_data_field _ Hno) as (field & -> & Hor). simpl.
      rewrite Hor. by eexists.
    + rewrite Hget. simpl. rewrite mapM_with_priority by done. by eexists.
Qed.

(** X11.  The load ends without a warning exactly when the reply has a 2xx
    status and a body that parses to something other than [null] and whose
    [data] is missing, falsy, or an array without a [null] in it.  In every
    other case (a rejected call, another status, a malformed body, the body
    [null], a [data] that is a truthy non-array, a [null] among the entries)
    the load warning is shown. *)
Theorem fetchTodos_warns_iff reply w :
  (error (ui (fetchTodos reply w)) = None ↔
   ∃ data, answered reply data
     ∧ (no_data data
        ∨ ∃ items, get data "data" = Value (JArr items)
                   ∧ Forall (λ item, item ≠ JNull) items))
  ∧ (error (ui (fetchTodos reply w)) ≠ None →
     error (ui (fetchTodos reply w)) = Some load_warning).
Proof.
  rewrite <-remote_todos_is_Some.
  destruct (remote_todos reply) as [l|] eqn:Hremote.
  - rewrite (fetchTodos_success _ _ _ Hremote). simpl. split; [|done].
    split; [by eexists|done].
  - rewrite (fetchTodos_failure _ _ Hremote). simpl. split; [|done].
    split; [done|]. by intros [? ?].
Qed.

Lemma cached_entry_null index : cached_entry index JNull = None.
Proof. done. Qed.

Lemma mapM_cached_entry_null items :
  JNull ∈ items → mapM id (imap cached_entry items) = None.
Proof.
  intros (i & Hi)%list_elem_of_lookup. apply mapM_None_2, Exists_exists.
  exists None. split; [|done]. apply list_elem_of_lookup. exists i.
  by rewrite list_lookup_imap, Hi.
Qed.

(** X12.  Edge cases of the fallback after a failed read.  A cached text
    that parses to something that is not an array gives the empty list, and
    so does an array with a [null] among its entries.  With nothing stored
    under ["todos"], or the empty text, the list is not touched at all. *)
Theorem fallback_edges reply w :
  read_fails reply →
  let after := todos (ui (fetchTodos reply w)) in
  (∀ stored v, getItem "todos" w = Some stored →
     JSON_parse stored = Some v → (∀ items, v ≠ JArr items) → after = [])
  ∧ (∀ stored items, getItem "todos" w = Some stored →
       JSON_parse stored = Some (JArr items) → JNull ∈ items → after = [])
  ∧ (getItem "todos" w = None ∨ getItem "todos" w = Some EmptyString →
     after = todos (ui w)).
Proof.
  intros Hfail. cbv zeta. rewrite (fetchTodos_failure _ _ Hfail). simpl.
  split_and!.
  - intros stored v -> Hparse Hv. unfold cached_todos.
    rewrite (stored_nonempty _ _ Hparse), Hparse. simpl.
    destruct v; try done. by destruct (Hv items).
  - intros stored items -> Hparse Hnull. unfold cached_todos.
    rewrite (stored_nonempty _ _ Hparse), Hparse. simpl.
    by rewrite mapM_cached_entry_null.
  - by intros [-> | ->].
Qed.

(** ** What holds in every state that can be reached *)

Lemma js_or_truthy a b : truthy b = true → truthy (js_or a b) = true.
Proof.
  intros Hb. unfold js_or. destruct a as [v|]; [|done].
  by destruct (truthy v) eqn:Hv.
Qed.

Lemma with_priority_has_priority item o :
  with_priority item = Some o → has_priority o.
Proof.
  unfold with_priority, has_priority.
  destruct (access_opt (get item "priority")) as [p|]; [|done]. simpl.
  intros [= <-]. rewrite lookup_insert_eq. simpl. by apply js_or_truthy.
Qed.

Lemma cached_entry_has_priority index item o :
  cached_entry index item = Some o → has_priority o.
Proof.
  unfold cached_entry. destruct (is_string item).
  - by intros [= <-].
  - apply with_priority_has_priority.
Qed.

Lemma mapM_Forall {A B} (f : A → option B) (P : B → Prop) l k :
  (∀ x y, f x = Some y → P y) → mapM f l = Some k → Forall P k.
Proof.
  intros Hf Hk%mapM_Some_1. induction Hk; constructor; eauto.
Qed.

Lemma cached_todos_has_priority stored l :
  cached_todos stored = Some l → Forall has_priority l.
Proof.
  unfold cached_todos. destruct stored as [s|]; [|done].
  destruct (nonempty s); [|done]. intros [= <-].
  destruct (JSON_parse s) as [[| | | |items|]|]; try by constructor.
  destruct (mapM id (imap cached_entry items)) as [l|] eqn:Hl;
    [|by constructor]. simpl.
  apply mapM_Some_1 in Hl. apply Forall_lookup. intros i o Ho.
  destruct (Forall2_lookup_r _ _ _ _ _ Hl Ho) as (x & Hx & Hxo).
  rewrite list_lookup_imap in Hx.
  destruct (items !! i) as [item|]; simplify_eq/=.
  by eapply cached_entry_has_priority.
Qed.

Lemma fetchTodos_has_priority reply w :
  Forall has_priority (todos (ui w)) →
  Forall has_priority (todos (ui (fetchTodos reply w))).
Proof.
  intros Hw. destruct (remote_todos reply) as [l|] eqn:Hremote.
  - rewrite (fetchTodos_success _ _ _ Hremote). simpl.
    unfold remote_todos in Hremote.
    destruct (json_of_reply reply) as [data|]; [|done]. simpl in Hremote.
    destruct (access_opt (get data "data")) as [field|]; [|done].
    simpl in Hremote.
    destruct (js_or field (JArr [])) as [| | | |items|]; try done.
    eapply mapM_Forall; [|exact Hremote].
    apply with_priority_has_priority.
  - rewrite (fetchTodos_failure _ _ Hremote). simpl.
    destruct (cached_todos (getItem "todos" w)) as [l|] eqn:Hl; [|done].
    by eapply cached_todos_has_priority.
Qed.

Lemma Priority_str_truthy p : truthy (JStr (Priority_str p)) = true.
Proof. by destruct p. Qed.

Lemma filter_Forall {A} (P : A → Prop) (Q : A → bool) l :
  Forall P l → Forall P (List.filter Q l).
Proof.
  induction 1 as [|x l Hx _ IH]; simpl; [done|].
  destruct (Q x); [by constructor|done].
Qed.

Lemma handleSubmit_todos reply w :
  todos (ui (handleSubmit reply w)) = todos (ui w)
  ∨ (trim (input (ui w)) ≠ EmptyString
     ∧ ∃ newTodo : Obj,
         todos (ui (handleSubmit reply w)) = todos (ui w) ++ [newTodo]
         ∧ newTodo !! "priority"
             = Some (JStr (Priority_str (priority (ui w))))).
Proof.
  destruct (decide (trim (input (ui w)) = EmptyString)) as [Hblank|Htext].
  - left. by rewrite handleSubmit_blank.
  - right. split; [done|]. rewrite handleSubmit_text by done.
    unfold addTodo.
    destruct (created_todo reply (priority (ui w))) as [newTodo|] eqn:Hnew;
      eexists; (split; [done|]).
    + apply created_todo_Some in Hnew as (data & _ & ->).
      apply lookup_insert_eq.
    + done.
Qed.

Lemma has_priority_act a w :
  Forall has_priority (todos (ui w)) →
  Forall has_priority (todos (ui (act a w))).
Proof.
  intros Hw. destruct a as [reply|id|id|text|p|f]; cbn [act]; try done.
  - destruct (handleSubmit_todos reply w) as [->|(_ & newTodo & -> & Hp)];
      [done|].
    apply Forall_app. split; [done|]. constructor; [|done].
    unfold has_priority. rewrite Hp. apply Priority_str_truthy.
  - rewrite todos_toggle. apply Forall_fmap.
    eapply Forall_impl; [exact Hw|]. intros todo Htodo.
    unfold has_priority. simpl. by rewrite toggle_one_other.
  - rewrite todos_delete. by apply filter_Forall.
Qed.

Lemma run_preserves (P : World → Prop) :
  (∀ a w, P w → P (act a w)) → ∀ actions w, P w → P (run actions w).
Proof.
  intros Hstep actions w Hw.
  apply (run_invariant P (λ _, True)); [by eauto| |done].
  by apply Forall_true.
Qed.

Lemma every_task_reached reply storage actions :
  Forall has_priority (todos (ui (run actions (mount reply storage)))).
Proof.
  apply (run_preserves (λ w, Forall has_priority (todos (ui w)))).
  - intros a w. apply has_priority_act.
  - apply fetchTodos_has_priority. constructor.
Qed.

(** X13.  In every state the component can reach (the mount with any
    reply over any store, then any actions) every task listed has a priority
    that counts as true, so there is always a priority to show and to sort
    by. *)
Theorem every_task_has_priority reply storage actions :
  let l := todos (ui (run actions (mount reply storage))) in
  Forall has_priority l
  ∧ ∀ i (todo : Obj), l !! i = Some todo →
      ∃ v, todo !! "priority" = Some v ∧ truthy v = true.
Proof.
  pose proof (every_task_reached reply storage actions) as Hl.
  split; [done|]. intros i todo Hi.
  pose proof (Forall_lookup_1 _ _ _ _ Hl Hi) as Htodo.
  unfold has_priority in Htodo.
  destruct (todo !! "priority") as [v|]; [|done]. eauto.
Qed.

Lemma mirrored_act a w : mirrored w → mirrored (act a w).
Proof.
  intros Hw. destruct a as [reply|id|id|text|p|f]; cbn [act]; try done.
  - unfold handleSubmit.
    destruct (negb (nonempty (trim (input (ui w))))); [done|].
    destruct (addTodo_writes (input (ui w)) (priority (ui w)) reply w)
      as (newTodo & Hl & Hc).
    eexists. split; [exact Hc|]. simpl. rewrite Hl.
    apply stringify_todos_parse.
  - eexists. split; [apply lookup_insert_eq|]. apply stringify_todos_parse.
  - eexists. split; [apply lookup_insert_eq|]. apply stringify_todos_parse.
Qed.

Lemma rewrites_mirrored a w : rewrites a w → mirrored (act a w).
Proof.
  destruct a as [reply|id|id|text|p|f]; cbn [act rewrites]; try done.
  - intros Htext. rewrite handleSubmit_text by done.
    destruct (addTodo_writes (input (ui w)) (priority (ui w)) reply w)
      as (newTodo & Hl & Hc).
    eexists. split; [exact Hc|]. simpl. rewrite Hl.
    apply stringify_todos_parse.
  - intros _. eexists. split; [apply lookup_insert_eq|].
    apply stringify_todos_parse.
  - intros _. eexists. split; [apply lookup_insert_eq|].
    apply stringify_todos_parse.
Qed.

(** X14.  From the first toggle, delete or submit of a text on, and through
    whatever the user does next, the text stored under ["todos"] parses to
    the list in memory; and once the cache mirrors the list no action breaks
    that. *)
Theorem cache_mirrors_from_first_change w a post :
  (rewrites a w → mirrored (run (a :: post) w))
  ∧ (mirrored w → mirrored (run (a :: post) w)).
Proof.
  split; intros Hw; simpl;
    (apply (run_preserves mirrored); [apply mirrored_act|]).
  - by apply rewrites_mirrored.
  - by apply mirrored_act.
Qed.

Lemma imap_normalized_objects (l : list Obj) :
  Forall has_priority l → imap normalized_entry (JObj <$> l) = l.
Proof.
  intros Hl. apply list_eq. intros i.
  rewrite list_lookup_imap, list_lookup_fmap.
  destruct (l !! i) as [m|] eqn:Hm; [|done]. simpl.
  unfold default_priority.
  by rewrite (Forall_lookup_1 _ _ _ _ Hl Hm).
Qed.

Lemma reload_mirrored reply w w' :
  mirrored w → Forall has_priority (todos (ui w)) →
  read_fails reply → localStorage w' = localStorage w →
  todos (ui (fetchTodos reply w')) = todos (ui w).
Proof.
  intros (s & Hs & Hparse) Hp Hfail Hstore.
  rewrite (fetchTodos_failure _ _ Hfail). simpl.
  unfold getItem in *. rewrite Hstore, Hs. unfold cached_todos.
  rewrite (stored_nonempty _ _ Hparse), Hparse.
  rewrite (mapM_imap_Some _ normalized_entry).
  - simpl. by apply imap_normalized_objects.
  - intros i x Hx. apply cached_entry_normalized.
    rewrite list_lookup_fmap in Hx.
    by destruct (todos (ui w) !! i); simplify_eq/=.
Qed.

Lemma prioritized_act a w :
  Forall prioritized (todos (ui w)) →
  Forall prioritized (todos (ui (act a w))).
Proof.
  intros Hw. destruct a as [reply|id|id|text|p|f]; cbn [act]; try done.
  - destruct (handleSubmit_todos reply w) as [->|(_ & newTodo & -> & Hp)];
      [done|].
    apply Forall_app. split; [done|]. constructor; [|done]. by eexists.
  - rewrite todos_toggle. apply Forall_fmap.
    eapply Forall_impl; [exact Hw|]. intros todo [p Hp]. exists p.
    simpl. by rewrite toggle_one_other.
  - rewrite todos_delete. by apply filter_Forall.
Qed.

(** X16.  Tasks with a priority outside [high], [medium], [low] can only
    come in through the load.  No action brings one in: if every task listed
    has one of the three tags, this is still so after any actions.  In
    particular every state is of that kind when the load failed over a store
    without ["todos"]. *)
Theorem priorities_stay_valid w actions :
  (Forall prioritized (todos (ui w)) →
   Forall prioritized (todos (ui (run actions w))))
  ∧ ∀ reply storage,
      read_fails reply → storage !! "todos" = None →
      Forall prioritized (todos (ui (run actions (mount reply storage)))).
Proof.
  assert (∀ w, Forall prioritized (todos (ui w)) →
               Forall prioritized (todos (ui (run actions w)))) as Hrun.
  { intros w'.
    apply (run_preserves (λ w, Forall prioritized (todos (ui w)))).
    intros a w''. apply prioritized_act. }
  split; [apply Hrun|]. intros reply storage Hfail Hnone. apply Hrun.
  unfold mount. rewrite (fetchTodos_failure _ _ Hfail). simpl.
  unfold getItem. simpl. rewrite Hnone. constructor.
Qed.

(** ** The views *)

Lemma filteredTodos_setFilter f w :
  filteredTodos (ui (setFilter f w)) =
    List.filter
      (λ todo : Obj,
         match f with
         | all => true
         | completed => truthy_opt (todo !! "completed")
         | active => negb (truthy_opt (todo !! "completed"))
         end)
      (todos (ui w)).
Proof. done. Qed.

(** X17.  The three filters.  [all] shows the whole list; [active] and
    [completed] split it: together they hold every task exactly once, no
    task is in both, and each view keeps the order of the list. *)
Theorem filters_partition w :
  let view f := filteredTodos (ui (setFilter f w)) in
  view all = todos (ui w)
  ∧ view active ++ view completed ≡ₚ todos (ui w)
  ∧ (∀ todo, todo ∈ view active → todo ∈ view completed → False)
  ∧ (∀ f, view f `sublist_of` todos (ui w)).
Proof.
  cbv beta zeta. rewrite !filteredTodos_setFilter. split_and!.
  - by apply filter_all_true, Forall_true.
  - apply (filter_partition (λ todo : Obj, truthy_opt (todo !! "completed"))).
  - intros todo [_ Ha]%list_elem_of_In%filter_In
      [_ Hc]%list_elem_of_In%filter_In.
    by rewrite Hc in Ha.
  - intros f. rewrite filteredTodos_setFilter. apply filter_sublist.
Qed.

(** X18.  The footer counts over the whole list, not over the view: it is
    the same under every filter, it is absent exactly when the list is
    empty, its first number is the size of the [completed] view and what is
    missing to its second number is the size of the [active] view. *)
Theorem summary_counts w :
  let view f := filteredTodos (ui (setFilter f w)) in
  (∀ f, summary (ui (setFilter f w)) = summary (ui w))
  ∧ (summary (ui w) = None ↔ todos (ui w) = [])
  ∧ (∀ done total, summary (ui w) = Some (done, total) →
       done = length (view completed)
       ∧ total = length (todos (ui w))
       ∧ done + length (view active) = total).
Proof.
  cbv beta zeta. split_and!.
  - done.
  - unfold summary. by destruct (todos (ui w)).
  - intros n total. unfold summary.
    destruct (0 <? length (todos (ui w)))%nat; [|done]. intros [= <- <-].
    rewrite !filteredTodos_setFilter. split_and!; [done..|].
    apply (filter_lengths (λ todo : Obj, truthy_opt (todo !! "completed"))).
Qed.

(** ** The trace *)

Lemma act_requests a w :
  requests (act a w) = requests w
  ∨ ∃ r, is_create_request r ∧ requests (act a w) = requests w ++ [r].
Proof.
  destruct a as [reply|id|id|text|p|f]; cbn [act]; try by left.
  destruct (decide (trim (input (ui w)) = EmptyString)) as [Hblank|Htext].
  - left. by rewrite handleSubmit_blank.
  - right. exists (post_request (input (ui w))). split; [by eexists|].
    rewrite handleSubmit_text by done. apply addTodo_requests.
Qed.

Lemma run_requests actions w :
  ∃ posts, requests (run actions w) = requests w ++ posts
           ∧ Forall is_create_request posts
           ∧ length posts ≤ length actions.
Proof.
  revert w. induction actions as [|a actions IH]; intros w.
  { exists []. by rewrite app_nil_r. }
  simpl. destruct (IH (act a w)) as (posts & -> & Hposts & Hlen).
  destruct (act_requests a w) as [->|(r & Hr & ->)].
  - exists posts. split_and!; [done..|lia].
  - exists (r :: posts). rewrite <-app_assoc. split_and!; [done| |simpl; lia].
    by constructor.
Qed.

(** X19.  All the component ever sends is one body-less GET at mount and
    then create calls: every later request is the POST of [{ task }] for a
    text that was not blank, at most one per action.  No request updates or
    deletes anything, and none carries a flag or a priority. *)
Theorem only_reads_and_creates reply storage actions :
  ∃ posts,
    requests (run actions (mount reply storage)) = get_request :: posts
    ∧ Forall is_create_request posts
    ∧ length posts ≤ length actions.
Proof.
  destruct (run_requests actions (mount reply storage))
    as (posts & Hrun & Hposts & Hlen).
  exists posts. split; [|done]. rewrite Hrun. unfold mount.
  by rewrite (fetchTodos_frame_requests reply (initial_world storage)).
Qed.

(** ** The other two components *)

Lemma Filtered_cached_entry_not_null index item :
  item ≠ JNull →
  ∃ o : Obj,
    Filtered.cached_entry index item = Some o
    ∧ o !! "id" = Some (JNum (Z.of_nat index + 1))
    ∧ (∀ k, k ≠ "id" → k ≠ "title" → k ≠ "completed" → o !! k = None)
    ∧ (∀ s, item = JStr s →
         o !! "title" = Some (JStr s) ∧ o !! "completed" = Some (JBool false))
    ∧ (∀ m, item = JObj m →
         o !! "title" = m !! "title"
         ∧ o !! "completed" = Some (js_or (m !! "completed") (JBool false))).
Proof.
  intros Hitem. unfold Filtered.cached_entry, Filtered.entry_title,
    Filtered.entry_completed.
  destruct item as [|b|n|s|l|m]; [done|..]; simpl;
    [| | | |destruct (m !! "title") as [t|] eqn:Ht,
              (m !! "completed") as [c|] eqn:Hc; simpl];
    (eexists; split; [done|]);
    split_and!; intros; simplify_eq;
    repeat match goal with Hm : _ !! _ = _ |- _ => rewrite Hm; clear Hm end;
    try split; by simplify_map_eq.
Qed.

(** X20.  The fallback of the component with filters, after a failed read
    over a cached array.  With a [null] among the entries the list becomes
    empty.  Otherwise every entry is rebuilt as an object of at most [id],
    [title] and [completed]: the id is the position plus one whatever id the
    entry had, a string becomes the title of an open task, an object keeps
    its title, keeps its flag when that counts as true and gets [false]
    otherwise, and loses everything else. *)
Theorem Filtered_fallback_renumbers reply w stored items :
  Basic.remote_todos reply = None →
  Filtered.localStorage w !! "todos" = Some stored →
  JSON_parse stored = Some (JArr items) →
  let after := Filtered.todos (Filtered.ui (Filtered.fetchTodos reply w)) in
  (JNull ∈ items → after = JArr [])
  ∧ (Forall (λ item, item ≠ JNull) items →
     ∃ l : list Obj,
       after = JArr (JObj <$> l)
       ∧ length l = length items
       ∧ ∀ i item, items !! i = Some item →
           ∃ o : Obj, l !! i = Some o
             ∧ o !! "id" = Some (JNum (Z.of_nat i + 1))
             ∧ (∀ k, k ≠ "id" → k ≠ "title" → k ≠ "completed" →
                  o !! k = None)
             ∧ (∀ s, item = JStr s →
                  o !! "title" = Some (JStr s)
                  ∧ o !! "completed" = Some (JBool false))
             ∧ (∀ m, item = JObj m →
                  o !! "title" = m !! "title"
                  ∧ o !! "completed"
                      = Some (js_or (m !! "completed") (JBool false)))).
Proof.
  intros Hfail Hstored Hparse. cbv zeta. unfold Filtered.fetchTodos.
  rewrite Hfail. simpl. rewrite Hstored. unfold Filtered.cached_todos.
  rewrite (stored_nonempty _ _ Hparse), Hparse. simpl. split.
  - intros (i & Hi)%list_elem_of_lookup.
    assert (mapM id (imap Filtered.cached_entry items) = None) as ->; [|done].
    apply mapM_None_2, Exists_exists. exists None. split; [|done].
    apply list_elem_of_lookup. exists i. by rewrite list_lookup_imap, Hi.
  - intros Hitems.
    rewrite (mapM_imap_Some _
               (λ i item, default ∅ (Filtered.cached_entry i item))).
    + exists (imap (λ i item, default ∅ (Filtered.cached_entry i item)) items).
      split; [done|]. split; [by rewrite length_imap|].
      intros i item Hi.
      destruct (Filtered_cached_entry_not_null i item)
        as (o & Ho & Hprops); [exact (Forall_lookup_1 _ _ _ _ Hitems Hi)|].
      exists o. split; [|done]. rewrite list_lookup_imap, Hi. simpl.
      by rewrite Ho.
    + intros i item Hi.
      destruct (Filtered_cached_entry_not_null i item) as (o & -> & _);
        [exact (Forall_lookup_1 _ _ _ _ Hitems Hi)|done].
Qed.

(** X21.  The fallback of the plain component, after a failed read over a
    cached array, never gives up on an entry: the list has the length of the
    array, and the entry at position [i] becomes the title of a new open
    task with id [i + 1], whatever the entry is (a record it wrote itself
    included, and [null] too). *)
Theorem Basic_fallback_wraps reply bw stored items :
  Basic.remote_todos reply = None →
  Basic.localStorage bw !! "todos" = Some stored →
  JSON_parse stored = Some (JArr items) →
  ∃ l,
    Basic.todos (Basic.ui (Basic.fetchTodos reply bw)) = JArr l
    ∧ length l = length items
    ∧ ∀ i item, items !! i = Some item →
        l !! i = Some (JObj {[ "id" := JNum (Z.of_nat i + 1);
                               "title" := item;
                               "completed" := JBool false ]}).
Proof.
  intros Hfail Hstored Hparse. unfold Basic.fetchTodos.
  rewrite Hfail. simpl. rewrite Hstored.
  rewrite (Basic_fallback_rebuilds _ _ Hparse). simpl.
  exists (imap Basic.cached_entry items).
  split; [done|]. split; [by rewrite length_imap|].
  intros i item Hi. by rewrite list_lookup_imap, Hi.
Qed.

End MoreComponentFacts.

(** * White space, and visits in which the load settles late *)

Section TrimFacts.

Lemma strip_runs_split (space : list ascii → bool) (l : list ascii) :
  ∃ runs, Forall (λ bytes, space bytes = true) runs
          ∧ l = concat runs ++ strip space l.
Proof.
  remember (length l) as n eqn:Hn. revert l Hn.
  induction n as [n IH] using lt_wf_ind. intros l Hn.
  assert (∀ l', length l' < length l →
            ∃ runs, Forall (λ bytes, space bytes = true) runs
                    ∧ l' = concat runs ++ strip space l') as IH'.
  { intros l' Hl'. apply (IH (length l')); [lia|done]. }
  clear IH Hn n.
  destruct l as [|a [|b [|c l]]]; simpl.
  - by exists [].
  - destruct (space [a]) eqn:Ha; [by exists [[a]]; split; [repeat constructor|]|].
    by exists [].
  - destruct (space [a]) eqn:Ha.
    { destruct (IH' [b] ltac:(simpl; lia)) as (runs & Hruns & Hl).
      exists ([a] :: runs). split; [by constructor|]. simpl. by f_equal. }
    destruct (space [a; b]) eqn:Hab; [|by exists []].
    exists [[a; b]]. split; [by repeat constructor|done].
  - destruct (space [a]) eqn:Ha.
    { destruct (IH' (b :: c :: l) ltac:(simpl; lia)) as (runs & Hruns & Hl).
      exists ([a] :: runs). split; [by constructor|]. simpl. by f_equal. }
    destruct (space [a; b]) eqn:Hab.
    { destruct (IH' (c :: l) ltac:(simpl; lia)) as (runs & Hruns & Hl).
      exists ([a; b] :: runs). split; [by constructor|]. simpl.
      by do 2 f_equal. }
    destruct (space [a; b; c]) eqn:Habc; [|by exists []].
    destruct (IH' l ltac:(simpl; lia)) as (runs & Hruns & Hl).
    exists ([a; b; c] :: runs). split; [by constructor|]. simpl.
    by do 3 f_equal.
Qed.

(** A code point of white space is one, two or three bytes, and no proper
    part of it, read from the front or from the back, is one. *)
Lemma is_space_shape bytes :
  is_space bytes = true →
  (∃ a, bytes = [a])
  ∨ (∃ a b, bytes = [a; b] ∧ is_space [a] = false ∧ is_space [b] = false)
  ∨ (∃ a b c, bytes = [a; b; c]
       ∧ is_space [a] = false ∧ is_space [a; b] = false
       ∧ is_space [c] = false ∧ is_space [b; c] = false).
Proof.
  unfold is_space, code_point.
  destruct bytes as [|a [|b [|c [|d bytes]]]]; simpl; try done.
  - intros _. left. by exists a.
  - intros Hab. right. left. exists a, b. split; [done|].
    destruct (N.leb_spec 0xC2 (N_of_ascii a)); [|done].
    destruct (N.leb_spec 0x80 (N_of_ascii b)); [|by rewrite andb_false_r in Hab].
    split.
    + destruct (N.ltb_spec (N_of_ascii a) 0x80); [lia|done].
    + destruct (N.ltb_spec (N_of_ascii b) 0x80); [lia|done].
  - intros Habc. right. right. exists a, b, c. split; [done|].
    destruct (N.leb_spec 0xE0 (N_of_ascii a)); [|done].
    destruct (N.leb_spec 0x80 (N_of_ascii b));
      [|by rewrite !andb_false_r in Habc].
    destruct (N.leb_spec (N_of_ascii b) 0xBF);
      [|by rewrite !andb_false_r in Habc].
    destruct (N.leb_spec 0x80 (N_of_ascii c));
      [|by rewrite !andb_false_r in Habc].
    split_and!.
    + destruct (N.ltb_spec (N_of_ascii a) 0x80); [lia|done].
    + destruct (N.leb_spec (N_of_ascii a) 0xDF); [lia|].
      by rewrite andb_false_r.
    + destruct (N.ltb_spec (N_of_ascii c) 0x80); [lia|done].
    + destruct (N.leb_spec 0xC2 (N_of_ascii b)); [lia|done].
Qed.

Lemma strip_run bytes rest :
  is_space bytes = true →
  strip is_space (bytes ++ rest) = strip is_space rest.
Proof.
  intros Hbytes.
  destruct (is_space_shape _ Hbytes)
    as [(a & ->)|[(a & b & -> & Ha & _)|(a & b & c & -> & Ha & Hab & _)]];
    simpl.
  - by rewrite Hbytes.
  - by rewrite Ha, Hbytes.
  - by rewrite Ha, Hab, Hbytes.
Qed.

Lemma strip_run_rev bytes rest :
  is_space bytes = true →
  strip (λ bytes, is_space (rev bytes)) (rev bytes ++ rest)
    = strip (λ bytes, is_space (rev bytes)) rest.
Proof.
  intros Hbytes.
  destruct (is_space_shape _ Hbytes)
    as [(a & ->)|[(a & b & -> & _ & Hb)|(a & b & c & -> & _ & _ & Hc & Hbc)]];
    simpl.
  - by rewrite Hbytes.
  - by rewrite Hb, Hbytes.
  - by rewrite Hc, Hbc, Hbytes.
Qed.

Lemma strip_runs runs :
  Forall (λ bytes, is_space bytes = true) runs →
  strip is_space (concat runs) = [].
Proof.
  induction 1 as [|bytes runs Hbytes _ IH]; simpl; [done|].
  by rewrite strip_run.
Qed.

Lemma rev_concat {A} (ls : list (list A)) :
  rev (concat ls) = concat (rev (map (@rev A) ls)).
Proof.
  induction ls as [|l ls IH]; simpl; [done|].
  rewrite rev_app_distr, IH, concat_app. simpl. by rewrite app_nil_r.
Qed.

Lemma list_ascii_of_string_nil s :
  list_ascii_of_string s = [] → s = EmptyString.
Proof. by destruct s. Qed.

(** [trim] leaves nothing exactly of a text that is white space and nothing
    else. *)
Lemma trim_blank s : trim s = EmptyString ↔ blank s.
Proof.
  unfold trim, trimEnd, trimStart, blank. split.
  - intros Hempty.
    apply (f_equal list_ascii_of_string) in Hempty.
    rewrite !list_ascii_of_string_of_list_ascii in Hempty. simpl in Hempty.
    apply (f_equal (@rev ascii)) in Hempty.
    rewrite rev_involutive in Hempty. simpl in Hempty.
    destruct (strip_runs_split is_space (list_ascii_of_string s))
      as (front & Hfront & Hs).
    destruct (strip_runs_split (λ bytes, is_space (rev bytes))
                (rev (strip is_space (list_ascii_of_string s))))
      as (back & Hback & Ht).
    rewrite Hempty, app_nil_r in Ht.
    apply (f_equal (@rev ascii)) in Ht. rewrite rev_involutive in Ht.
    exists (front ++ rev (map (@rev ascii) back)). split.
    + apply Forall_app. split; [done|].
      apply List.Forall_forall. intros bytes Hin.
      apply in_rev, in_map_iff in Hin as (run & <- & Hrun).
      exact (proj1 (List.Forall_forall _ _) Hback run Hrun).
    + rewrite concat_app, <-rev_concat. by rewrite <-Ht.
  - intros (runs & Hruns & Hs).
    by rewrite Hs, strip_runs.
Qed.

Lemma not_blank_trim s : ¬ blank s ↔ trim s ≠ EmptyString.
Proof. by rewrite trim_blank. Qed.

End TrimFacts.

Section MoreSessionFacts.
Context `{!Platform}.

(** ** Blank input *)

Lemma addTodo_appends_new task p reply w :
  ∃ newTodo : Obj,
    todos (ui (addTodo task p reply w).2) = todos (ui w) ++ [newTodo].
Proof.
  unfold addTodo. by destruct (created_todo reply p); eexists.
Qed.

(** X24.  [handleSubmit] does nothing exactly when the input is white space
    and nothing else, white space as ECMAScript has it: the ASCII blanks and
    line ends, the no-break space, the other spaces of category Zs, U+2028,
    U+2029 and U+FEFF.  On any other input the list grows by one and the
    input is cleared, whatever the reply. *)
Theorem handleSubmit_unchanged_iff_blank reply w :
  (handleSubmit reply w = w ↔ blank (input (ui w)))
  ∧ (¬ blank (input (ui w)) →
     length (todos (ui (handleSubmit reply w))) = S (length (todos (ui w)))
     ∧ input (ui (handleSubmit reply w)) = EmptyString).
Proof.
  assert (¬ blank (input (ui w)) →
          length (todos (ui (handleSubmit reply w)))
            = S (length (todos (ui w)))
          ∧ input (ui (handleSubmit reply w)) = EmptyString) as Htext.
  { intros Htext. apply not_blank_trim in Htext.
    rewrite (handleSubmit_text _ _ Htext). split; [|done].
    destruct (addTodo_appends_new (input (ui w)) (priority (ui w)) reply w)
      as (newTodo & Hlist).
    simpl. rewrite Hlist, length_app. simpl. lia. }
  split; [|exact Htext]. split.
  - intros Hsame.
    destruct (decide (trim (input (ui w)) = EmptyString)) as [Hblank|Hne];
      [by apply trim_blank|].
    apply not_blank_trim in Hne. destruct (Htext Hne) as [Hlength _].
    rewrite Hsame in Hlength. lia.
  - intros Hblank. by apply handleSubmit_blank, trim_blank.
Qed.

(** ** The load and the user, in any order *)

Lemma fetchTodos_settles reply w :
  fetchTodos reply w = settle reply (begin_load w).
Proof. reflexivity. Qed.

Lemma settle_todos reply w :
  todos (ui (settle reply w)) = todos (ui (fetchTodos reply w)).
Proof.
  unfold settle, fetchTodos.
  destruct (remote_todos reply); [done|]. simpl.
  unfold getItem. simpl. by destruct (cached_todos (localStorage w !! "todos")).
Qed.

Lemma happen_has_priority e w :
  Forall has_priority (todos (ui w)) →
  Forall has_priority (todos (ui (happen e w))).
Proof.
  destruct e as [a|reply]; cbn [happen].
  - apply has_priority_act.
  - rewrite settle_todos. apply fetchTodos_has_priority.
Qed.

Lemma visit_has_priority storage events :
  Forall has_priority (todos (ui (visit storage events))).
Proof.
  unfold visit. induction events as [|e events IH] using rev_ind.
  - constructor.
  - rewrite foldl_app. simpl. by apply happen_has_priority.
Qed.

(** X15.  What was saved comes back.  Take a visit in which the user's
    actions and the settling of the load came in any order, and let the user
    then toggle, delete or submit a text, and do anything else after that,
    with no load settling any more.  Mounting the component again over the
    store as it stands, with the server out of reach, lists exactly the
    tasks that were listed: same records, same order. *)
Theorem offline_reload_restores storage events a post reply :
  let w0 := visit storage events in
  let w := run (a :: post) w0 in
  rewrites a w0 →
  read_fails reply →
  todos (ui (mount reply (localStorage w))) = todos (ui w).
Proof.
  intros w0 w Ha Hfail. apply reload_mirrored; [| |done..].
  - unfold w. simpl.
    apply (run_preserves mirrored); [apply mirrored_act|].
    by apply rewrites_mirrored.
  - unfold w.
    apply (run_preserves (λ w, Forall has_priority (todos (ui w)))).
    + intros a' w'. apply has_priority_act.
    + apply visit_has_priority.
Qed.

(** X23.  A cache that does not parse empties the list.  After a failed
    read over a stored text that is not empty and is not JSON, the list
    becomes empty whatever was listed before, the load warning is shown, and
    the text stays in the store as it is. *)
Theorem fallback_unparsable_clears reply w stored :
  read_fails reply →
  getItem "todos" w = Some stored →
  stored ≠ EmptyString →
  JSON_parse stored = None →
  todos (ui (fetchTodos reply w)) = []
  ∧ error (ui (fetchTodos reply w)) = Some load_warning
  ∧ getItem "todos" (fetchTodos reply w) = Some stored.
Proof.
  intros Hfail Hstored Hne Hparse.
  rewrite (fetchTodos_failure _ _ Hfail). unfold getItem in *. simpl.
  rewrite Hstored. unfold cached_todos, nonempty. rewrite Hparse.
  by destruct (String.eqb_spec stored EmptyString).
Qed.

End MoreSessionFacts.

(** * The properties at work on sample data *)

(** Two values cannot be equal when an observation [f] tells them apart. *)
Ltac told_apart_by f H :=
  apply (f_equal f) in H; vm_compute in H; discriminate H.

(** C3 on a list of two: the new record gets id 3. *)
Lemma addTodo_failure_witness :
  failed_call NetworkError
  ∧ let result :=
      addTodo "Buy milk" medium NetworkError
        (world_of [walk_dog; pay_rent] "Buy milk" ∅) in
    result.1 = false
    ∧ todos (ui result.2) =
        [walk_dog; pay_rent;
         {[ "id" := JNum 3; "title" := JStr "Buy milk";
            "completed" := JBool false; "priority" := JStr "medium" ]}]
    ∧ error (ui result.2) = Some add_warning.
Proof.
  split; [by left|].
  destruct (addTodo_failure "Buy milk" medium NetworkError
              (world_of [walk_dog; pay_rent] "Buy milk" ∅)
              (or_introl eq_refl)) as (Hstatus & Hlist & _ & _ & Herror & _).
  split_and!; [exact Hstatus | exact Hlist | exact Herror].
Defined.

(** C1, amended, on a cache that holds a bare title and an object without
    priority. *)
Lemma fallback_normalizes_witness :
  let cached := [JStr "Walk dog"; JObj legacy_entry] in
  let w := initial_world {[ "todos" := text_of (JArr cached) ]} in
  read_fails NetworkError
  ∧ getItem "todos" w = Some (text_of (JArr cached))
  ∧ JSON_parse (text_of (JArr cached)) = Some (JArr cached)
  ∧ Forall (λ item, item ≠ JNull) cached
  ∧ todos (ui (fetchTodos NetworkError w)) =
      [synthesized 0 "Walk dog";
       <["priority" := JStr "medium"]> legacy_entry].
Proof.
  assert (read_fails NetworkError) as Hfail by reflexivity.
  assert (getItem "todos"
            (initial_world
               {[ "todos" := text_of (JArr [JStr "Walk dog"; JObj legacy_entry]) ]})
          = Some (text_of (JArr [JStr "Walk dog"; JObj legacy_entry])))
    as Hstored by reflexivity.
  assert (JSON_parse (text_of (JArr [JStr "Walk dog"; JObj legacy_entry]))
          = Some (JArr [JStr "Walk dog"; JObj legacy_entry]))
    as Hparse by (vm_compute; reflexivity).
  assert (Forall (λ item, item ≠ JNull) [JStr "Walk dog"; JObj legacy_entry])
    as Hitems by (repeat constructor; discriminate).
  cbv zeta. split_and!; [done..|].
  exact (proj1 (fallback_normalizes _ _ _ _ Hfail Hstored Hparse Hitems)).
Defined.

(** Against C1 as first stated.  A cached object whose priority is the
    empty string does not come back unchanged, and one [null] among the
    cached entries empties the whole list. *)
Lemma fallback_counterexample :
  (let cached := [JObj blank_priority_entry] in
   let w := initial_world {[ "todos" := text_of (JArr cached) ]} in
   read_fails NetworkError
   ∧ getItem "todos" w ≫= JSON_parse = Some (JArr cached)
   ∧ todos (ui (fetchTodos NetworkError w))
       = [<["priority" := JStr "medium"]> blank_priority_entry]
   ∧ ¬ specified_fallback cached (todos (ui (fetchTodos NetworkError w))))
  ∧ (let cached := [JStr "Walk dog"; JNull] in
     let w := initial_world {[ "todos" := text_of (JArr cached) ]} in
     read_fails NetworkError
     ∧ getItem "todos" w ≫= JSON_parse = Some (JArr cached)
     ∧ todos (ui (fetchTodos NetworkError w)) = []
     ∧ ¬ specified_fallback cached (todos (ui (fetchTodos NetworkError w)))).
Proof.
  split; cbv zeta; (split_and!; [by vm_compute..|]).
  - intros [_ Hspec].
    specialize (Hspec 0%nat (JObj blank_priority_entry) blank_priority_entry
                  eq_refl eq_refl).
    told_apart_by (λ o : option Obj, o ≫= (.!! "priority")) Hspec.
  - intros [Hlength _]. vm_compute in Hlength. discriminate Hlength.
Qed.

(** C4, amended, on a reply with two objects, one without priority; the
    stale cache is not touched. *)
Lemma fetchTodos_success_defaults_witness :
  let items := [JObj legacy_entry; JObj walk_dog] in
  let data := JObj {[ "data" := JArr items ]} in
  let w := world_of [] EmptyString {[ "todos" := "stale" ]} in
  let w' := fetchTodos (Response 200 (text_of data)) w in
  (200 ≤ 200 ≤ 299)%Z
  ∧ JSON_parse (text_of data) = Some data
  ∧ get data "data" = Value (JArr items)
  ∧ Forall (λ item, item ≠ JNull) items
  ∧ todos (ui w') = [<["priority" := JStr "medium"]> legacy_entry; walk_dog]
  ∧ error (ui w') = None
  ∧ localStorage w' = {[ "todos" := "stale" ]}.
Proof.
  assert (200 ≤ 200 ≤ 299)%Z as Hstatus by lia.
  assert (JSON_parse
            (text_of (JObj {[ "data" := JArr [JObj legacy_entry; JObj walk_dog] ]}))
          = Some (JObj {[ "data" := JArr [JObj legacy_entry; JObj walk_dog] ]}))
    as Hparse by (vm_compute; reflexivity).
  assert (get (JObj {[ "data" := JArr [JObj legacy_entry; JObj walk_dog] ]})
              "data"
          = Value (JArr [JObj legacy_entry; JObj walk_dog]))
    as Hdata by reflexivity.
  assert (Forall (λ item, item ≠ JNull) [JObj legacy_entry; JObj walk_dog])
    as Hitems by (repeat constructor; discriminate).
  cbv zeta. split_and!; [done..| | |];
    destruct (fetchTodos_success_defaults 200 _ _ _
                (world_of [] EmptyString {[ "todos" := "stale" ]})
                Hstatus Hparse Hdata Hitems)
      as (Hlist & _ & Herror & Hstore).
  - exact Hlist.
  - exact Herror.
  - exact Hstore.
Defined.

(** Against C4 as first stated.  With a [null] in the [data] array the
    loader ends on its failure path, warning included; an object whose
    priority is the empty string does not come through unchanged. *)
Lemma fetchTodos_success_counterexample :
  (let items := [JNull] in
   let reply := Response 200 (body_of (JArr items)) in
   let w := initial_world ∅ in
   JSON_parse (body_of (JArr items)) = Some (JObj {[ "data" := JArr items ]})
   ∧ error (ui (fetchTodos reply w)) = Some load_warning
   ∧ ¬ specified_remote items (ui (fetchTodos reply w)))
  ∧ (let items := [JObj blank_priority_entry] in
     let reply := Response 200 (body_of (JArr items)) in
     let w := initial_world ∅ in
     JSON_parse (body_of (JArr items)) = Some (JObj {[ "data" := JArr items ]})
     ∧ todos (ui (fetchTodos reply w))
         = [<["priority" := JStr "medium"]> blank_priority_entry]
     ∧ ¬ specified_remote items (ui (fetchTodos reply w))).
Proof.
  split; cbv zeta; (split_and!; [by vm_compute..|]).
  - intros (_ & _ & Herror). vm_compute in Herror. discriminate Herror.
  - intros (_ & Hspec & _).
    specialize (Hspec 0%nat blank_priority_entry eq_refl).
    told_apart_by (λ o : option Obj, o ≫= (.!! "priority")) Hspec.
Qed.

(** C5 on [walk_dog (high); pay_rent (medium); call_mum (high)]. *)
Lemma sortedTodos_stable_descending_witness :
  let s := ui (world_of [walk_dog; pay_rent; call_mum] EmptyString ∅) in
  Forall prioritized (filteredTodos s)
  ∧ sortedTodos s = [walk_dog; call_mum; pay_rent].
Proof.
  assert (Forall prioritized
            (filteredTodos
               (ui (world_of [walk_dog; pay_rent; call_mum] EmptyString ∅))))
    as Hall.
  { repeat constructor; [by exists high | by exists medium | by exists high]. }
  split; [exact Hall|].
  by apply (sortedTodos_stable_descending _ Hall).
Defined.

(** C6: one toggle changes the list, the second gives it back. *)
Lemma toggle_twice_restores_witness :
  let w := world_of [walk_dog; pay_rent] EmptyString ∅ in
  Forall has_boolean_completed (todos (ui w))
  ∧ todos (ui (toggleTodoCompletion 2 w)) ≠ todos (ui w)
  ∧ todos (ui (toggleTodoCompletion 2 (toggleTodoCompletion 2 w)))
      = todos (ui w).
Proof.
  assert (Forall has_boolean_completed
            (todos (ui (world_of [walk_dog; pay_rent] EmptyString ∅))))
    as Hall.
  { repeat constructor; by eexists. }
  cbv zeta. split_and!; [exact Hall| |].
  - intros Heq.
    told_apart_by (λ l : list Obj, l !! 1%nat ≫= (.!! "completed")) Heq.
  - exact (proj2 (proj2 (toggle_twice_restores 2 _) Hall)).
Defined.

(** C7, amended: blanks alone change nothing, be they ASCII or not; a padded
    title goes out with its padding. *)
Lemma handleSubmit_passes_input_witness :
  (let w := world_of [walk_dog] "   " ∅ in
   trim (input (ui w)) = EmptyString ∧ handleSubmit NetworkError w = w)
  ∧ (let w := world_of [walk_dog] wide_blank ∅ in
     trim (input (ui w)) = EmptyString ∧ handleSubmit NetworkError w = w)
  ∧ (let w := world_of [walk_dog] "  Buy milk " ∅ in
     trim (input (ui w)) ≠ EmptyString
     ∧ requests (handleSubmit NetworkError w) = [post_request "  Buy milk "]).
Proof.
  split; [|split]; cbv zeta.
  - assert (trim (input (ui (world_of [walk_dog] "   " ∅))) = EmptyString)
      as Hblank by reflexivity.
    split; [exact Hblank|].
    exact (proj1 (handleSubmit_passes_input NetworkError _) Hblank).
  - assert (trim (input (ui (world_of [walk_dog] wide_blank ∅)))
            = EmptyString) as Hblank by reflexivity.
    split; [exact Hblank|].
    exact (proj1 (handleSubmit_passes_input NetworkError _) Hblank).
  - assert (trim (input (ui (world_of [walk_dog] "  Buy milk " ∅)))
            ≠ EmptyString) as Htext by (vm_compute; discriminate).
    split; [exact Htext|].
    exact (proj2 (proj2 (handleSubmit_passes_input NetworkError _) Htext)).
Defined.

(** Against C7 as first stated: the title that is added is the input with
    its blanks, not the trimmed text. *)
Lemma handleSubmit_counterexample :
  let w := world_of [] "  Buy milk " ∅ in
  trim (input (ui w)) = "Buy milk"
  ∧ todos (ui (handleSubmit NetworkError w)) =
      [ {[ "id" := JNum 1; "title" := JStr "  Buy milk ";
           "completed" := JBool false; "priority" := JStr "medium" ]} ]
  ∧ handleSubmit NetworkError w ≠
      setInput EmptyString
        (addTodo (trim (input (ui w))) (priority (ui w)) NetworkError w).2.
Proof.
  cbv zeta. split_and!; [by vm_compute..|].
  intros Heq. told_apart_by (λ w : World, body <$> requests w) Heq.
Qed.

(** C8 at mount over an empty store, and after some typing over a store
    whose text does not parse.  In between: once a task was added the cache
    parses, so the premise of C8 no longer applies. *)
Lemma fetchTodos_without_cache_witness :
  (let w := run [] (initial_world ∅) in
   read_fails NetworkError
   ∧ getItem "todos" w = None
   ∧ todos (ui (fetchTodos NetworkError w)) = []
   ∧ error (ui (fetchTodos NetworkError w)) = Some load_warning)
  ∧ (let w := run [TypeText "Buy"; ChoosePriority high; Submit NetworkError]
                  (initial_world {[ "todos" := "{oops" ]}) in
     let reply := Response 503 "Service Unavailable" in
     read_fails reply
     ∧ todos (ui w) ≠ []
     ∧ is_Some (getItem "todos" w ≫= JSON_parse))
  ∧ (let w := run [TypeText "   "; Submit NetworkError; ChooseFilter active]
                  (initial_world {[ "todos" := "{oops" ]}) in
     let reply := Response 503 "Service Unavailable" in
     read_fails reply
     ∧ getItem "todos" w = Some "{oops"
     ∧ JSON_parse "{oops" = None
     ∧ todos (ui (fetchTodos reply w)) = []
     ∧ error (ui (fetchTodos reply w)) = Some load_warning).
Proof.
  split_and!; cbv zeta.
  - assert (read_fails NetworkError) as Hfail by reflexivity.
    assert (getItem "todos" (run [] (initial_world ∅)) = None)
      as Hnone by reflexivity.
    destruct (fetchTodos_without_cache ∅ [] NetworkError Hfail
                (or_introl Hnone)) as (Hlist & Herror & _).
    split_and!; [done | done | exact Hlist | exact Herror].
  - split_and!; [reflexivity | by vm_compute | by vm_compute; eexists].
  - assert (read_fails (Response 503 "Service Unavailable"))
      as Hfail by reflexivity.
    assert (getItem "todos"
              (run [TypeText "   "; Submit NetworkError; ChooseFilter active]
                 (initial_world {[ "todos" := "{oops" ]})) = Some "{oops")
      as Hstored by reflexivity.
    assert (JSON_parse "{oops" = None) as Hparse by reflexivity.
    destruct (fetchTodos_without_cache {[ "todos" := "{oops" ]}
                [TypeText "   "; Submit NetworkError; ChooseFilter active]
                (Response 503 "Service Unavailable") Hfail
                (or_intror (ex_intro _ "{oops" (conj Hstored Hparse))))
      as (Hlist & Herror & _).
    split_and!; [done | done | done | exact Hlist | exact Herror].
Defined.

(** C10, amended, on a body without [data]; the cached title is not read. *)
Lemma fetchTodos_without_data_witness :
  let data := JObj {[ "message" := JStr "nothing yet" ]} in
  let reply := Response 200 (text_of data) in
  let w := world_of [walk_dog] EmptyString
             {[ "todos" := text_of (JArr [JStr "Walk dog"]) ]} in
  (200 ≤ 200 ≤ 299)%Z
  ∧ JSON_parse (text_of data) = Some data
  ∧ no_data data
  ∧ todos (ui (fetchTodos reply w)) = []
  ∧ error (ui (fetchTodos reply w)) = None.
Proof.
  assert (200 ≤ 200 ≤ 299)%Z as Hstatus by lia.
  assert (JSON_parse (text_of (JObj {[ "message" := JStr "nothing yet" ]}))
          = Some (JObj {[ "message" := JStr "nothing yet" ]}))
    as Hparse by (vm_compute; reflexivity).
  assert (no_data (JObj {[ "message" := JStr "nothing yet" ]}))
    as Hdata by exact I.
  cbv zeta. split_and!; [done..| |];
    destruct (fetchTodos_without_data 200 _ _
                (world_of [walk_dog] EmptyString
                   {[ "todos" := text_of (JArr [JStr "Walk dog"]) ]})
                {| Basic.ui := Basic.initial_state;
                   Basic.localStorage := ∅; Basic.requests := [] |}
                Hstatus Hparse Hdata) as ((Hlist & Herror & _) & _).
  - exact Hlist.
  - exact Herror.
Defined.

(** Against C10 as first stated: the body [null] parses and has no [data],
    yet both loaders end on the failure path and read the cache. *)
Lemma fetchTodos_without_data_counterexample :
  let reply := Response 200 "null" in
  let w := initial_world {[ "todos" := text_of (JArr [JStr "Walk dog"]) ]} in
  let bw := {| Basic.ui := Basic.initial_state;
               Basic.localStorage := localStorage w;
               Basic.requests := [] |} in
  JSON_parse "null" = Some JNull
  ∧ get JNull "data" = Throws
  ∧ error (ui (fetchTodos reply w)) = Some load_warning
  ∧ todos (ui (fetchTodos reply w)) = [synthesized 0 "Walk dog"]
  ∧ Basic.error (Basic.ui (Basic.fetchTodos reply bw)) = Some load_warning
  ∧ Basic.todos (Basic.ui (Basic.fetchTodos reply bw)) ≠ JArr [].
Proof.
  cbv zeta. split_and!; [by vm_compute..|].
  vm_compute. discriminate.
Qed.

(** X2 and X3 on an id that no task carries: list and cache text stay as a
    rewrite of the same list. *)
Lemma deleteTodo_again_witness :
  let w := world_of [walk_dog; pay_rent] EmptyString ∅ in
  Forall (λ todo, id_is 9 todo = false) (todos (ui w))
  ∧ deleteTodo 9 (deleteTodo 9 w) = deleteTodo 9 w
  ∧ todos (ui (deleteTodo 9 w)) = [walk_dog; pay_rent]
  ∧ getItem "todos" (deleteTodo 9 w)
      = Some (stringify_todos [walk_dog; pay_rent]).
Proof.
  assert (Forall (λ todo, id_is 9 todo = false) [walk_dog; pay_rent])
    as Habsent by (repeat constructor).
  cbv zeta.
  destruct (deleteTodo_again 9 (world_of [walk_dog; pay_rent] EmptyString ∅))
    as (Hagain & Hrest).
  destruct (Hrest Habsent) as (Hlist & Hcache).
  split_and!; [exact Habsent | exact Hagain | exact Hlist | exact Hcache].
Defined.

Lemma toggle_touches_only_id_witness :
  let w := world_of [walk_dog; pay_rent] EmptyString ∅ in
  walk_dog !! "completed" = Some (JBool false)
  ∧ id_is 1 walk_dog = true
  ∧ ∃ todo' : Obj,
      todos (ui (toggleTodoCompletion 1 w)) !! 0 = Some todo'
      ∧ todo' !! "completed" = Some (JBool true)
      ∧ todo' !! "title" = Some (JStr "Walk dog")
      ∧ todos (ui (toggleTodoCompletion 1 w)) !! 1 = Some pay_rent.
Proof.
  cbv zeta.
  destruct (toggle_touches_only_id 1
              (world_of [walk_dog; pay_rent] EmptyString ∅))
    as (_ & Heach & _).
  destruct (Heach 0 walk_dog eq_refl) as (todo' & Hat & Hkeys & _ & Hflip).
  destruct (Heach 1 pay_rent eq_refl) as (other & Hother & _ & Hsame & _).
  rewrite (Hsame eq_refl) in Hother.
  split_and!; [reflexivity..|].
  exists todo'. split_and!; [exact Hat | exact (Hflip eq_refl) | | exact Hother].
  by rewrite (Hkeys "title").
Defined.

(** X7 on a server that answers with its own record: the chosen priority
    wins over the server's, the rest is the server's. *)
Lemma addTodo_answered_witness :
  let reply := Response 201 (body_of (JObj legacy_entry)) in
  let w := world_of [walk_dog] "Buy milk" ∅ in
  answered reply (JObj {[ "data" := JObj legacy_entry ]})
  ∧ ∃ newTodo : Obj,
      todos (ui (addTodo "Buy milk" high reply w).2) = [walk_dog; newTodo]
      ∧ newTodo !! "priority" = Some (JStr "high")
      ∧ newTodo !! "id" = Some (JNum 7)
      ∧ newTodo !! "completed" = Some (JBool true).
Proof.
  assert (answered (Response 201 (body_of (JObj legacy_entry)))
            (JObj {[ "data" := JObj legacy_entry ]})) as Hanswered.
  { exists 201%Z, (body_of (JObj legacy_entry)).
    split_and!; [reflexivity | lia | lia | by vm_compute | discriminate]. }
  cbv zeta. split; [exact Hanswered|].
  destruct (addTodo_answered "Buy milk" high _ _
              (world_of [walk_dog] "Buy milk" ∅) Hanswered)
    as (newTodo & Hlist & Hpriority & Hrecord & _).
  exists newTodo.
  split_and!; [exact Hlist | exact Hpriority | |].
  - by rewrite (Hrecord legacy_entry eq_refl "id").
  - by rewrite (Hrecord legacy_entry eq_refl "completed").
Defined.

(** X9 on two tasks: typing, a failed submit and a toggle keep the ids
    1, 2, 3. *)
Lemma numbering_kept_witness :
  let w := world_of [walk_dog; pay_rent] EmptyString ∅ in
  let actions := [TypeText "Buy milk"; Submit NetworkError; Toggle 2] in
  ids_by_position (todos (ui w))
  ∧ Forall keeps_numbering actions
  ∧ ids_by_position (todos (ui (run actions w)))
  ∧ length (todos (ui (run actions w))) = 3.
Proof.
  assert (ids_by_position [walk_dog; pay_rent]) as Hids.
  { intros [|[|i]] todo Hi; simpl in Hi; by simplify_eq. }
  assert (Forall keeps_numbering
            [TypeText "Buy milk"; Submit NetworkError; Toggle 2]) as Hkeep.
  { repeat constructor. }
  cbv zeta. split_and!; [exact Hids | exact Hkeep | |by vm_compute].
  exact (proj1 (numbering_kept
                  (world_of [walk_dog; pay_rent] EmptyString ∅) _ Hids Hkeep)).
Defined.

(** X22 on three tasks: delete the first, add one offline, and two tasks
    carry an id. *)
Lemma delete_then_offline_add_reuses_id_witness :
  let w := world_of [walk_dog; pay_rent; call_mum] EmptyString ∅ in
  ids_by_position (todos (ui w))
  ∧ (1 ≤ 1 < Z.of_nat (length (todos (ui w))))%Z
  ∧ failed_call NetworkError
  ∧ ∃ i j (a b : Obj),
      i ≠ j
      ∧ todos (ui (addTodo "Buy milk" low NetworkError (deleteTodo 1 w)).2)
          !! i = Some a
      ∧ todos (ui (addTodo "Buy milk" low NetworkError (deleteTodo 1 w)).2)
          !! j = Some b
      ∧ a !! "id" = b !! "id".
Proof.
  assert (ids_by_position [walk_dog; pay_rent; call_mum]) as Hids.
  { intros [|[|[|i]]] todo Hi; simpl in Hi; by simplify_eq. }
  assert (1 ≤ 1 < Z.of_nat (length [walk_dog; pay_rent; call_mum]))%Z
    as Hrange by (simpl; lia).
  cbv zeta. split; [exact Hids|]. split; [exact Hrange|]. split; [by left|].
  exact (delete_then_offline_add_reuses_id
           (world_of [walk_dog; pay_rent; call_mum] EmptyString ∅)
           1 "Buy milk" low NetworkError Hids Hrange (or_introl eq_refl)).
Defined.

(** X12 on a cache that holds an object where an array is expected. *)
Lemma fallback_edges_witness :
  let stored := text_of (JObj legacy_entry) in
  let w := world_of [walk_dog] EmptyString {[ "todos" := stored ]} in
  read_fails NetworkError
  ∧ getItem "todos" w = Some stored
  ∧ JSON_parse stored = Some (JObj legacy_entry)
  ∧ todos (ui (fetchTodos NetworkError w)) = [].
Proof.
  assert (read_fails NetworkError) as Hfails by reflexivity.
  cbv zeta. split_and!; [exact Hfails | reflexivity | by vm_compute |].
  destruct (fallback_edges NetworkError
              (world_of [walk_dog] EmptyString
                 {[ "todos" := text_of (JObj legacy_entry) ]}) Hfails)
    as (Hshape & _).
  apply (Hshape (text_of (JObj legacy_entry)) (JObj legacy_entry));
    [reflexivity | by vm_compute | discriminate].
Defined.

(** X14 on a store that holds nothing: one toggle, and the cache mirrors
    the list through what follows. *)
Lemma cache_mirrors_from_first_change_witness :
  let w := world_of [walk_dog; pay_rent] "Buy milk" ∅ in
  let post := [ChooseFilter active; Submit NetworkError; Delete 1] in
  rewrites (Toggle 2) w
  ∧ getItem "todos" w = None
  ∧ mirrored (run (Toggle 2 :: post) w).
Proof.
  cbv zeta. split_and!; [exact I | reflexivity |].
  exact (proj1 (cache_mirrors_from_first_change
                  (world_of [walk_dog; pay_rent] "Buy milk" ∅) (Toggle 2)
                  [ChooseFilter active; Submit NetworkError; Delete 1]) I).
Defined.

(** X15 on a visit in which the user is faster than the server: a task is
    submitted while the list loads, then the load settles with the two
    tasks of the server, then the second is toggled.  The next visit,
    without server, shows those two tasks. *)
Lemma offline_reload_restores_witness :
  let events :=
    [Does (TypeText "Buy milk"); Does (Submit NetworkError);
     Settles (Response 200 (body_of (JArr [JObj walk_dog; JObj pay_rent])))] in
  let w := run [Toggle 2; ChooseFilter active] (visit ∅ events) in
  rewrites (Toggle 2) (visit ∅ events)
  ∧ read_fails (Response 500 EmptyString)
  ∧ todos (ui w) = [walk_dog; <["completed" := JBool false]> pay_rent]
  ∧ todos (ui (mount (Response 500 EmptyString) (localStorage w)))
      = todos (ui w).
Proof.
  assert (read_fails (Response 500 EmptyString)) as Hfails by reflexivity.
  cbv zeta. split_and!; [exact I | exact Hfails | by vm_compute |].
  exact (offline_reload_restores ∅
           [Does (TypeText "Buy milk"); Does (Submit NetworkError);
            Settles (Response 200
                       (body_of (JArr [JObj walk_dog; JObj pay_rent])))]
           (Toggle 2) [ChooseFilter active] (Response 500 EmptyString)
           I Hfails).
Defined.

(** Why X15 asks for a change after the load: in the same visit without the
    toggle, the list is the server's and the cache still holds the task
    that was submitted before, so the next visit without server shows that
    one task. *)
Lemma late_load_outruns_cache :
  let events :=
    [Does (TypeText "Buy milk"); Does (Submit NetworkError);
     Settles (Response 200 (body_of (JArr [JObj walk_dog; JObj pay_rent])))] in
  let w := visit ∅ events in
  todos (ui w) = [walk_dog; pay_rent]
  ∧ todos (ui (mount NetworkError (localStorage w)))
      = [ {[ "id" := JNum 1; "title" := JStr "Buy milk";
             "completed" := JBool false; "priority" := JStr "medium" ]} ].
Proof. cbv zeta. split; by vm_compute. Qed.

(** X23 on a list of one over a store whose text is cut short. *)
Lemma fallback_unparsable_clears_witness :
  let w := world_of [walk_dog] EmptyString {[ "todos" := "[{" ]} in
  read_fails NetworkError
  ∧ getItem "todos" w = Some "[{"
  ∧ JSON_parse "[{" = None
  ∧ todos (ui (fetchTodos NetworkError w)) = []
  ∧ error (ui (fetchTodos NetworkError w)) = Some load_warning.
Proof.
  assert (read_fails NetworkError) as Hfails by reflexivity.
  assert (JSON_parse "[{" = None) as Hparse by (by vm_compute).
  cbv zeta.
  destruct (fallback_unparsable_clears NetworkError
              (world_of [walk_dog] EmptyString {[ "todos" := "[{" ]})
              "[{" Hfails (lookup_singleton_eq _ _)
              ltac:(discriminate) Hparse) as (Hlist & Herror & _).
  split_and!; [exact Hfails | apply lookup_singleton_eq | exact Hparse
              | exact Hlist | exact Herror].
Defined.

(** X16 on a list of valid priorities. *)
Lemma priorities_stay_valid_witness :
  let w := world_of [walk_dog; pay_rent] "Buy milk" ∅ in
  let actions := [ChoosePriority low; Submit NetworkError; Toggle 3] in
  Forall prioritized (todos (ui w))
  ∧ Forall prioritized (todos (ui (run actions w))).
Proof.
  assert (Forall prioritized [walk_dog; pay_rent]) as Hvalid.
  { repeat constructor; [by exists high | by exists medium]. }
  cbv zeta. split; [exact Hvalid|].
  exact (proj1 (priorities_stay_valid
                  (world_of [walk_dog; pay_rent] "Buy milk" ∅)
                  [ChoosePriority low; Submit NetworkError; Toggle 3])
           Hvalid).
Defined.

(** X20 and X21 on a cache that holds a bare title and an object. *)
Lemma Filtered_fallback_renumbers_witness :
  let items := [JStr "Walk dog"; JObj legacy_entry] in
  let w := {| Filtered.ui := Filtered.initial_state;
              Filtered.localStorage := {[ "todos" := text_of (JArr items) ]};
              Filtered.requests := [] |} in
  Basic.remote_todos NetworkError = None
  ∧ JSON_parse (text_of (JArr items)) = Some (JArr items)
  ∧ Forall (λ item, item ≠ JNull) items
  ∧ ∃ l : list Obj,
      Filtered.todos (Filtered.ui (Filtered.fetchTodos NetworkError w))
        = JArr (JObj <$> l)
      ∧ length l = 2.
Proof.
  assert (Forall (λ item, item ≠ JNull) [JStr "Walk dog"; JObj legacy_entry])
    as Hitems by (repeat constructor; discriminate).
  assert (JSON_parse (text_of (JArr [JStr "Walk dog"; JObj legacy_entry]))
          = Some (JArr [JStr "Walk dog"; JObj legacy_entry])) as Hparse.
  { by vm_compute. }
  cbv zeta. split_and!; [reflexivity | exact Hparse | exact Hitems |].
  destruct (Filtered_fallback_renumbers NetworkError
              {| Filtered.ui := Filtered.initial_state;
                 Filtered.localStorage :=
                   {[ "todos" :=
                        text_of (JArr [JStr "Walk dog"; JObj legacy_entry]) ]};
                 Filtered.requests := [] |}
              (text_of (JArr [JStr "Walk dog"; JObj legacy_entry]))
              [JStr "Walk dog"; JObj legacy_entry]
              eq_refl (lookup_singleton_eq _ _) Hparse) as (_ & Hwhole).
  destruct (Hwhole Hitems) as (l & Hlist & Hlength & _).
  exists l. split; [exact Hlist | exact Hlength].
Defined.

Lemma Basic_fallback_wraps_witness :
  let items := [JStr "Walk dog"; JObj legacy_entry] in
  let bw := {| Basic.ui := Basic.initial_state;
               Basic.localStorage := {[ "todos" := text_of (JArr items) ]};
               Basic.requests := [] |} in
  Basic.remote_todos NetworkError = None
  ∧ JSON_parse (text_of (JArr items)) = Some (JArr items)
  ∧ ∃ l,
      Basic.todos (Basic.ui (Basic.fetchTodos NetworkError bw)) = JArr l
      ∧ l !! 1 = Some (JObj {[ "id" := JNum 2; "title" := JObj legacy_entry;
                               "completed" := JBool false ]}).
Proof.
  assert (JSON_parse (text_of (JArr [JStr "Walk dog"; JObj legacy_entry]))
          = Some (JArr [JStr "Walk dog"; JObj legacy_entry])) as Hparse.
  { by vm_compute. }
  cbv zeta. split_and!; [reflexivity | exact Hparse |].
  destruct (Basic_fallback_wraps NetworkError
              {| Basic.ui := Basic.initial_state;
                 Basic.localStorage :=
                   {[ "todos" :=
                        text_of (JArr [JStr "Walk dog"; JObj legacy_entry]) ]};
                 Basic.requests := [] |}
              (text_of (JArr [JStr "Walk dog"; JObj legacy_entry]))
              [JStr "Walk dog"; JObj legacy_entry]
              eq_refl (lookup_singleton_eq _ _) Hparse) as (l & Hlist & _ & Heach).
  exists l. split; [exact Hlist|].
  exact (Heach 1 (JObj legacy_entry) eq_refl).
Defined.
